(** * MRphy: masked spin arrays and the slow Bloch simulators

    A shallow embedding of [mrphy/mobjs.py] ([SpinArray], [SpinCube]) and of
    [mrphy/slowsims.py] ([blochsim], [freeprec]).

    Conventions of the embedding.
    - A tensor of shape [(N, *Nd, ...)] is held row-major, as the list of its
      trailing blocks: one element of the list per index [(n, *spatial)].
      The element type stands for the trailing block.
    - A mask of shape [(1, *Nd)] is the row-major list of its booleans.
    - Arithmetic on tensor entries is taken in the real numbers.
    - A Python exception is a [Raise] in the [result] monad. *)

From Stdlib Require Import String List Arith ZArith Bool Lia Reals Lra.
Import ListNotations.

Set Implicit Arguments.

(** ** Exceptions *)

Inductive exn : Set :=
| AssertionError
| RuntimeError
| TypeError
| IndexError
| AttributeError.

Inductive result (A : Type) : Type :=
| Ok (a : A)
| Raise (e : exn).

Arguments Ok {A} a.
Arguments Raise {A} e.

Definition bind {A B : Type} (r : result A) (k : A -> result B) : result B :=
  match r with
  | Ok a => k a
  | Raise e => Raise e
  end.

Notation "x <- r ;; k" := (bind r (fun x => k))
  (at level 61, r at next level, right associativity).

(** [assert c] of Python. *)
Definition py_assert (c : bool) : result unit :=
  if c then Ok tt else Raise AssertionError.

(** ** Boolean-mask indexing of torch, on row-major lists *)

Definition prod (l : list nat) : nat := fold_right Nat.mul 1 l.

Definition count_true (m : list bool) : nat := length (filter (fun b => b) m).

Section MaskedIndexing.
Context {A : Type}.

(** [v[mask]]: the entries of [v] at the true positions, in order. *)
Fixpoint masked_select (m : list bool) (v : list A) : list A :=
  match m, v with
  | b :: m', x :: v' =>
      if b then x :: masked_select m' v' else masked_select m' v'
  | _, _ => []
  end.

(** [out[mask] = src]: the true positions of [out] receive the entries of
    [src], in order. *)
Fixpoint masked_assign (m : list bool) (out src : list A) : list A :=
  match m, out with
  | b :: m', o :: out' =>
      if b then
        match src with
        | s :: src' => s :: masked_assign m' out' src'
        | [] => o :: masked_assign m' out' []
        end
      else o :: masked_assign m' out' src
  | _, _ => out
  end.
End MaskedIndexing.

(** [mask.expand(shape)]: the mask of shape [(1, *Nd)] repeated along the
    batch axis. *)
Definition expand_mask (n : nat) (m : list bool) : list bool :=
  concat (repeat m n).

(** ** SpinArray: the read-only structure *)

Record SpinArray : Type := mkSpinArray {
  shape : list nat;      (* (N, *Nd) *)
  mask : list bool       (* (1, *Nd), row-major *)
}.

Definition batch (sp : SpinArray) : nat := hd 0 (shape sp).   (* shape[0] *)
Definition Nd (sp : SpinArray) : list nat := tl (shape sp).   (* shape[1:] *)
Definition ndim (sp : SpinArray) : nat := length (shape sp).
Definition nM (sp : SpinArray) : nat := count_true (mask sp).
Definition numel (sp : SpinArray) : nat := length (mask sp).

(** What [__init__] asserts of the mask: [mask.shape == (1,)+shape[1:]]. *)
Definition mask_fits (sp : SpinArray) : Prop :=
  length (mask sp) = prod (Nd sp).

Section EmbedExtract.
Context {A : Type}.
Variable nan : A.   (* the block filled with float('NaN'), of a floating dtype *)

(** [SpinArray.extract], with [out_ = None]. *)
Definition extract (sp : SpinArray) (v : list A) : result (list A) :=
  let m := expand_mask (batch sp) (mask sp) in
  if negb (length v =? length m) then Raise IndexError
  else
    let sel := masked_select m v in
    if negb (length sel =? batch sp * nM sp) then Raise RuntimeError
    else Ok sel.

(** [SpinArray.embed], with [out = None] and a contiguous [v_].  The
    assignment [out[mask] = v_.view(...)] takes as many blocks as the mask
    has true entries, or a single block, which it broadcasts. *)
Definition embed (sp : SpinArray) (v_ : list A) : result (list A) :=
  let out := repeat nan (batch sp * numel sp) in
  let m := expand_mask (batch sp) (mask sp) in
  if negb (length v_ =? count_true m) then
    match v_ with
    | [x] => Ok (masked_assign m out (repeat x (count_true m)))
    | _ => Raise RuntimeError
    end
  else Ok (masked_assign m out v_).
End EmbedExtract.

(** ** Integer-array (advanced) indexing of torch *)

Fixpoint mapM {A B : Type} (f : A -> result B) (l : list A) : result (list B) :=
  match l with
  | [] => Ok []
  | x :: l' => y <- f x ;; ys <- mapM f l' ;; Ok (y :: ys)
  end.

(** An index [i] into an axis of size [n]; negative indices count from the
    end. *)
Definition norm_index (n : nat) (i : Z) : result nat :=
  if ((0 <=? i) && (i <? Z.of_nat n))%Z then Ok (Z.to_nat i)
  else if ((- Z.of_nat n <=? i) && (i <? 0))%Z then Ok (Z.to_nat (i + Z.of_nat n))
  else Raise IndexError.

(** Row-major offset of a full multi-index. *)
Fixpoint ravel (dims : list nat) (idx : list Z) : result nat :=
  match dims, idx with
  | [], [] => Ok 0
  | d :: dims', i :: idx' =>
      i' <- norm_index d i ;;
      r <- ravel dims' idx' ;;
      Ok (i' * prod dims' + r)
  | _, _ => Raise IndexError
  end.

(** Multi-index of a row-major offset. *)
Fixpoint unravel (dims : list nat) (p : nat) : list nat :=
  match dims with
  | [] => []
  | d :: dims' => p / prod dims' :: unravel dims' (p mod prod dims')
  end.

(** Broadcasting of the lengths of one-dimensional index arrays. *)
Definition bc2 (a b : nat) : result nat :=
  if a =? b then Ok a
  else if a =? 1 then Ok b
  else if b =? 1 then Ok a
  else Raise IndexError.

Fixpoint bc_len (ls : list nat) : result nat :=
  match ls with
  | [] => Ok 1
  | l :: ls' => r <- bc_len ls' ;; bc2 l r
  end.

(** The [j]-th entry of an index array after broadcasting. *)
Definition bc_get (l : list Z) (j : nat) : Z :=
  if length l =? 1 then nth 0 l 0%Z else nth j l 0%Z.

Definition point (crds : list (list Z)) (j : nat) : list Z :=
  map (fun l => bc_get l j) crds.

Section AdvancedIndexing.
Context {A B : Type}.
(** Indexing of a trailing block by the entries that remain. *)
Variable sub : list Z -> A -> result B.

Definition index_at (dims : list nat) (t : list A) (crds : list (list Z))
    (j : nat) : result B :=
  let pt := point crds j in
  p <- ravel dims (firstn (length dims) pt) ;;
  match nth_error t p with
  | Some a => sub (skipn (length dims) pt) a
  | None => Raise IndexError
  end.

(** [t[crds]] for a list [crds] of integer index arrays; [dims] are the
    leading axes of [t], those held by the row-major list. *)
Definition adv_index (dims : list nat) (t : list A) (crds : list (list Z))
    : result (list B) :=
  L <- bc_len (map (@length Z) crds) ;;
  mapM (index_at dims t crds) (seq 0 L).
End AdvancedIndexing.

(** No trailing axis is left to index. *)
Definition sub_none {A : Type} (tr : list Z) (a : A) : result A :=
  match tr with
  | [] => Ok a
  | _ :: _ => Raise IndexError
  end.

(** [m = zeros(mask.shape) - 1; m[mask] = arange(nM)]: the table of compact
    indices. *)
Definition compact_table (m : list bool) : list Z :=
  masked_assign m (repeat (-1)%Z (length m))
    (map Z.of_nat (seq 0 (count_true m))).

(** [SpinArray.crds_], for a list [crds] of one-dimensional integer index
    arrays; then [m[...].tolist()] is a flat list of integers, which the
    comprehension filters.  Slices and index arrays of more axes, for which
    [tolist()] gives nested lists, are not covered. *)
Definition crds_ (sp : SpinArray) (crds : list (list Z))
    : result (list (list Z)) :=
  _ <- py_assert (ndim sp <=? length crds) ;;
  match crds with
  | [] => Raise IndexError
  | c0 :: rest =>
      let crds' := c0 :: skipn (ndim sp) crds in
      let m := compact_table (mask sp) in
      sel <- adv_index sub_none (1 :: Nd sp) m
               ([0%Z] :: firstn (ndim sp - 1) rest) ;;
      let inds_ := filter (fun i => negb (i =? -1)%Z) sel in
      match crds' with
      | c :: tr => Ok (c :: inds_ :: tr)
      | [] => Ok [inds_]
      end
  end.

(** The structural part of [SpinArray.__init__]: the default mask and the
    assertion on the shape of the mask. *)
Definition SpinArray_new (shp : list nat) (msk : option (list bool))
    : result SpinArray :=
  let m := match msk with
           | None => repeat true (prod (tl shp))
           | Some m => m
           end in
  _ <- py_assert (length m =? prod (tl shp)) ;;
  Ok (mkSpinArray shp m).

(** ** Dynamic calls *)

(** A Python value handed to a method that expects a tensor: a tensor, or
    something callable. Calling a tensor is a [TypeError]. *)
Inductive pyobj (T : Type) : Type :=
| PyTensor (t : T)
| PyFunction (f : T -> result T).

Arguments PyTensor {T} t.
Arguments PyFunction {T} f.

Definition py_call {T : Type} (o : pyobj T) (arg : T) : result T :=
  match o with
  | PyTensor _ => Raise TypeError
  | PyFunction f => f arg
  end.

(** [SpinArray.mask_]: [mask(self.mask).reshape((1, -1))]; the reshape of a
    row-major list to [(1, -1)] keeps the list. *)
Definition mask_ (sp : SpinArray) (m : pyobj (list bool))
    : result (list bool) :=
  r <- py_call m (mask sp) ;;
  Ok r.

(** ** Attribute assignment of SpinArray, on shapes

    Here a tensor is abstracted to its shape. *)

Definition tshape : Type := list nat.

Definition _readonly : list string :=
  ["shape"; "mask"; "device"; "dtype"; "ndim"; "nM"]%string.
Definition _compact : list string := ["T1_"; "T2_"; "γ_"; "M_"]%string.
Definition __slots__ : list string := _readonly ++ _compact.

Definition mem (k : string) (l : list string) : bool :=
  existsb (String.eqb k) l.

(** [tensor.expand(size)] of torch, on shapes aligned from the last axis:
    an axis is kept when it has the wanted size and stretched when it has
    size one; the tensor may not have more axes than [size]. *)
Fixpoint expandable_rev (s t : list nat) : bool :=
  match s, t with
  | [], _ => true
  | _ :: _, [] => false
  | a :: s', b :: t' => ((a =? b) || (a =? 1)) && expandable_rev s' t'
  end.

Definition expand (s size : tshape) : result tshape :=
  if expandable_rev (rev s) (rev size) then Ok size else Raise RuntimeError.

Definition shape_eqb (s t : tshape) : bool :=
  if list_eq_dec Nat.eq_dec s t then true else false.

(** The shape that [SpinArray.extract] returns on a tensor of shape [v]. *)
Definition extract_shape (sp : SpinArray) (v : tshape) : result tshape :=
  if negb (shape_eqb (firstn (ndim sp) v) (shape sp)) then Raise IndexError
  else Ok (batch sp :: nM sp :: skipn (ndim sp) v).

(** [self.shape[0]]. *)
Definition shape0 (sp : SpinArray) : result nat :=
  match shape sp with
  | n :: _ => Ok n
  | [] => Raise IndexError
  end.

(** The object: its read-only structure and the slots assigned so far. *)
Record SpinArrayObj : Type := mkObj {
  base : SpinArray;
  slots : string -> option tshape
}.

Definition set_slot (k : string) (v : tshape) (o : SpinArrayObj)
    : SpinArrayObj :=
  mkObj (base o) (fun k' => if String.eqb k' k then Some v else slots o k').

(** [object.__setattr__] on a class with [__slots__]. *)
Definition object_setattr (o : SpinArrayObj) (k : string) (v : tshape)
    : result SpinArrayObj :=
  if mem k __slots__ then Ok (set_slot k v o) else Raise AttributeError.

(** [SpinArray.__setattr__]. *)
Definition SpinArray_setattr (o : SpinArrayObj) (k_ : string) (v_ : tshape)
    : result SpinArrayObj :=
  let sp := base o in
  _ <- py_assert (negb (mem k_ _readonly)) ;;
  kv <- (if mem (k_ ++ "_") _compact then
           _ <- py_assert (shape_eqb (firstn (ndim sp) v_) (shape sp)) ;;
           v' <- extract_shape sp v_ ;;
           _ <- py_assert (negb (mem (k_ ++ "_") _readonly)) ;;
           Ok ((k_ ++ "_")%string, v')
         else Ok (k_, v_)) ;;
  let k_ := fst kv in
  let v_ := snd kv in
  v_ <- (if String.eqb k_ "M_" then
           let size := firstn 1 (shape sp) ++ [nM sp; 3] in
           if negb (shape_eqb v_ size) then expand v_ size else Ok v_
         else if mem k_ _compact then
           n <- shape0 sp ;;
           expand v_ [n; nM sp]
         else Ok v_) ;;
  object_setattr o k_ v_.

(** [SpinArray.__init__], with the shapes of the four compact arguments. *)
Definition SpinArray_init (shp : list nat) (msk : option (list bool))
    (T1 T2 γ M : tshape) : result SpinArrayObj :=
  sp <- SpinArray_new shp msk ;;
  let o := mkObj sp (fun _ => None) in
  o <- SpinArray_setattr o "T1_" T1 ;;
  o <- SpinArray_setattr o "T2_" T2 ;;
  o <- SpinArray_setattr o "γ_" γ ;;
  SpinArray_setattr o "M_" M.

(** ** Three-vectors over the reals *)

Open Scope R_scope.

Record vec3 : Type := V3 { vx : R; vy : R; vz : R }.

Definition v0 : vec3 := V3 0 0 0.

(** The component [v[..., i]] for [i] in [range(3)]. *)
Definition comp (i : nat) (v : vec3) : R :=
  match i with
  | O => vx v
  | S O => vy v
  | _ => vz v
  end.

Definition set_comp (i : nat) (v : vec3) (x : R) : vec3 :=
  match i with
  | O => V3 x (vy v) (vz v)
  | S O => V3 (vx v) x (vz v)
  | _ => V3 (vx v) (vy v) x
  end.

Definition dot (a b : vec3) : R := vx a * vx b + vy a * vy b + vz a * vz b.

Definition cross (a b : vec3) : vec3 :=
  V3 (vy a * vz b - vz a * vy b)
     (vz a * vx b - vx a * vz b)
     (vx a * vy b - vy a * vx b).

Definition scale (k : R) (a : vec3) : vec3 := V3 (k * vx a) (k * vy a) (k * vz a).

Definition vadd (a b : vec3) : vec3 := V3 (vx a + vx b) (vy a + vy b) (vz a + vz b).

Definition norm (a : vec3) : R := sqrt (dot a a).

(** ** SpinCube: field of view, offset and the locations *)

(** Modelled from the spec: [utils.ctrsub] is not part of the sources at hand;
    the spec gives the normalized grid as centered at zero and lying in
    [-0.5, 0.5) along each axis, which for an integer center subscript of an
    axis of [x] points is [x // 2]. *)
Definition ctrsub (x : nat) : nat := Nat.div x 2.

(** [(torch.arange(x) - ctrsub(x)) / x]. *)
Definition crdn (x : nat) : list R :=
  map (fun k => (INR k - INR (ctrsub x)) / INR x) (seq 0 x).

(** [torch.meshgrid] of the vectors [cs], each grid row-major: the first grid repeats every
    entry of the first vector over the axes that follow, the other grids are
    those of the vectors that follow, tiled along the first axis. *)
Fixpoint meshgrid (cs : list (list R)) : list (list R) :=
  match cs with
  | [] => []
  | c :: cs' =>
      flat_map (fun x => repeat x (prod (map (@length R) cs'))) c
      :: map (fun g => concat (repeat g (length c))) (meshgrid cs')
  end.

(** Row [n] of a [(N, xyz)] or [(1, xyz)] tensor, as broadcasting sees it. *)
Definition brow (l : list vec3) (n : nat) : vec3 :=
  if (length l =? 1)%nat then nth 0%nat l v0 else nth n l v0.

(** Can the rows be broadcast along a batch axis of size [n]? *)
Definition bc_rows (n : nat) (l : list vec3) : bool :=
  ((length l =? 1) || (length l =? n))%nat.

Record SpinCube : Type := mkSpinCube {
  spinarray : SpinArray;
  fov : list vec3;       (* (N, xyz) *)
  ofst : list vec3;      (* (N, xyz) *)
  loc_ : list vec3       (* (N, nM, xyz) *)
}.

(** One turn of the loop of [_update_loc_]:
    [loc_[..., i] = fov[:, None, i]*_locn[i][mask[0, ...]][None, ...]
                    + ofst[:, None, i]]. *)
Definition update_axis (sp : SpinArray) (fv of_ : list vec3)
    (_locn : list (list R)) (l : list vec3) (i : nat) : result (list vec3) :=
  match nth_error _locn i with
  | None => Raise IndexError
  | Some g =>
      if negb (length g =? length (mask sp))%nat then Raise IndexError
      else
        let sel := masked_select (mask sp) g in
        if negb (bc_rows (batch sp) fv && bc_rows (batch sp) of_)
        then Raise RuntimeError
        else
          let rhs :=
            flat_map (fun n =>
                        map (fun x => comp i (brow fv n) * x
                                      + comp i (brow of_ n)) sel)
                     (seq 0 (batch sp)) in
          Ok (map (fun ov => set_comp i (fst ov) (snd ov)) (combine l rhs))
  end.

(** The loop [for i in range(3)] of [_update_loc_] over the axes [axes]:
    the buffer [loc_] is written in place, one axis after the other, so a
    turn that raises leaves the axes written before it; the right-hand side
    is evaluated, and checked against the shape of [loc_[..., i]], before
    anything of that axis is written. *)
Fixpoint update_axes (sp : SpinArray) (fv of_ : list vec3)
    (_locn : list (list R)) (l : list vec3) (axes : list nat)
    : list vec3 * result unit :=
  match axes with
  | [] => (l, Ok tt)
  | i :: axes' =>
      match update_axis sp fv of_ _locn l i with
      | Ok l' => update_axes sp fv of_ _locn l' axes'
      | Raise e => (l, Raise e)
      end
  end.

(** [SpinCube._update_loc_]: the cube it leaves, and whether it returned. *)
Definition _update_loc_ (c : SpinCube) : SpinCube * result unit :=
  let sp := spinarray c in
  let _locn := meshgrid (map crdn (Nd sp)) in
  let r := update_axes sp (fov c) (ofst c) _locn (loc_ c) [0; 1; 2]%nat in
  (mkSpinCube sp (fov c) (ofst c) (fst r), snd r).

(** [SpinCube.__init__]: the inner spin array is built from the shapes of
    [T1_], [T2_], [γ_] and [M_]; [fov], [ofst] and a buffer of zeros are
    stored, [_update_loc_] runs, and [Δf_] is assigned last, expanded to
    [(N, nM)].  A constructor that raises hands no object to its caller.
    [fov] and [ofst] are tensors of two axes with rows of x, y, z. *)
Definition SpinCube_init (shp : list nat) (fv : list vec3)
    (msk : option (list bool)) (of_ : list vec3)
    (Δf_ T1_ T2_ γ_ M_ : tshape) : result SpinCube :=
  o <- SpinArray_init shp msk T1_ T2_ γ_ M_ ;;
  let sp := base o in
  let r := _update_loc_
             (mkSpinCube sp fv of_ (repeat v0 (batch sp * nM sp))) in
  _ <- snd r ;;
  _ <- expand Δf_ [batch sp; nM sp] ;;
  Ok (fst r).

(** [SpinCube.__setattr__] at [k_ = 'fov'] and at [k_ = 'ofst'], for a value
    of two axes with rows of x, y, z: the value is stored first
    ([super().__setattr__(k_, v_)]), then [_update_loc_] runs.  The cube
    left behind comes with the outcome: when [_update_loc_] raises, the
    value stored before it stays. *)
Definition SpinCube_set_fov (c : SpinCube) (v_ : list vec3)
    : SpinCube * result unit :=
  _update_loc_ (mkSpinCube (spinarray c) v_ (ofst c) (loc_ c)).

Definition SpinCube_set_ofst (c : SpinCube) (v_ : list vec3)
    : SpinCube * result unit :=
  _update_loc_ (mkSpinCube (spinarray c) (fov c) v_ (loc_ c)).

(** [SpinCube.mask_]. *)
Definition SpinCube_mask_ (c : SpinCube) (m : pyobj (list bool))
    : result (list bool) :=
  mask_ (spinarray c) m.

(** The dense position of a compact spin: the offset of the [s]-th true entry
    of the mask. *)
Definition spin_pos (m : list bool) (s : nat) : nat :=
  nth s (masked_select m (seq 0 (length m))) 0%nat.

(** The normalized grid coordinate along axis [i] of the dense position [p]. *)
Definition grid_coord (dims : list nat) (i p : nat) : R :=
  let x := nth i dims 0%nat in
  (INR (nth i (unravel dims p) 0%nat) - INR (ctrsub x)) / INR x.

(** ** slowsims: the Bloch simulators *)

(** An operand that broadcasts against the spins: the value it takes at the
    spin of row-major offset [i]. A scalar is a constant function. *)
Definition bcast : Type := nat -> R.

Fixpoint mapi_from {A B : Type} (k : nat) (f : nat -> A -> B) (l : list A)
    : list B :=
  match l with
  | [] => []
  | x :: l' => f k x :: mapi_from (S k) f l'
  end.

Definition mapi {A B : Type} (f : nat -> A -> B) (l : list A) : list B :=
  mapi_from 0 f l.

(** Modelled from the spec: [beffective.beff2uϕ] is not part of the sources
    at hand. The spec gives the angle as the magnitude of [γ·2π·dt·b] and the
    axis as [b] normalized.  For a zero field the spec leaves the axis
    undefined; no property below rests on the value it takes here. *)
Definition beff2uϕ (b : vec3) (γ2πdt : R) : vec3 * R :=
  (scale (/ norm b) b, norm (scale γ2πdt b)).

(** Modelled from the spec: [utils.uϕrot] is not part of the sources at hand.
    The spec gives it as the rotation of [M] about the axis [u] by the angle
    [ϕ] through Rodrigues' rotation formula. *)
Definition uϕrot (u : vec3) (ϕ : R) (M : vec3) : vec3 :=
  vadd (vadd (scale (cos ϕ) M) (scale ((1 - cos ϕ) * dot u M) u))
       (scale (sin ϕ) (cross u M)).

(** [torch.any(ϕ != 0)]. *)
Definition any_nonzero (ϕ : list R) : bool :=
  existsb (fun x => if Req_dec_T x 0 then false else true) ϕ.

(** The relaxation lines of the loop:
    [M1[..., 0:2] *= E2; M1[..., 2] *= E1; M1[..., 2] -= E1_1]. *)
Definition relax (E1 E1_1 E2 : bcast) (M1 : list vec3) : list vec3 :=
  mapi (fun i m => V3 (vx m * E2 i) (vy m * E2 i) (vz m * E1 i - E1_1 i)) M1.

(** The rotation lines of the loop, [M1] as it stands before relaxation. *)
Definition rotate (γ2πdt : bcast) (b M : list vec3) : list vec3 :=
  let uϕ := mapi (fun i bi => beff2uϕ bi (γ2πdt i)) b in
  if any_nonzero (map snd uϕ)
  then map (fun p => uϕrot (fst (fst p)) (snd (fst p)) (snd p)) (combine uϕ M)
  else M.

(** [blochsim]; [Beff] is held as the list of its slices [Beff[..., t]]. *)
Definition blochsim (M : list vec3) (Beff : list (list vec3))
    (T1 T2 : option bcast) (γ dt : bcast) : result (list vec3) :=
  _ <- py_assert (forallb (fun b => length b =? length M)%nat Beff) ;;
  let E1 : bcast := match T1 with
                    | None => fun _ => 1
                    | Some T1 => fun i => exp (- dt i / T1 i)
                    end in
  let E2 : bcast := match T2 with
                    | None => fun _ => 1
                    | Some T2 => fun i => exp (- dt i / T2 i)
                    end in
  let E1_1 : bcast := fun i => E1 i - 1 in
  let γ2πdt : bcast := fun i => 2 * PI * γ i * dt i in
  Ok (fold_left (fun M b => relax E1 E1_1 E2 (rotate γ2πdt b M)) Beff M).

Definition is_none {A : Type} (o : option A) : bool :=
  match o with None => true | Some _ => false end.

(** [freeprec]. *)
Definition freeprec (M : list vec3) (dur : bcast) (T1 T2 Δf : option bcast)
    : result (list vec3) :=
  let M := match Δf with
           | Some Δf =>
               mapi (fun i m =>
                       let ϕ := - (2 * PI) * Δf i * dur i in
                       V3 (cos ϕ * vx m - sin ϕ * vy m)
                          (sin ϕ * vx m + cos ϕ * vy m)
                          (vz m)) M
           | None => M
           end in
  _ <- py_assert (Bool.eqb (is_none T1) (is_none T2)) ;;
  match T1 with
  | None => Ok M
  | Some T1 =>
      match T2 with
      | None => Raise AttributeError
      | Some T2 =>
          Ok (mapi (fun i m =>
                      let E1 := exp (- dur i / T1 i) in
                      let E2 := exp (- dur i / T2 i) in
                      V3 (E2 * vx m) (E2 * vy m) (E1 * vz m + 1 - E1)) M)
      end
  end.

(** The law of free precession in the words of the design: a rotation of
    [(x, y)] by [ϕ = -2π·Δf·dur] when an off-resonance is given, then
    [(E2·x', E2·y', E1·z - (E1 - 1))], with [E1 = E2 = 1] when no relaxation
    is given. *)
Definition freeprec_law (dur : bcast) (T1 T2 Δf : option bcast) (i : nat)
    (m : vec3) : vec3 :=
  let xy := match Δf with
            | Some Δf =>
                let ϕ := - 2 * PI * Δf i * dur i in
                (vx m * cos ϕ - vy m * sin ϕ, vx m * sin ϕ + vy m * cos ϕ)
            | None => (vx m, vy m)
            end in
  let E1 := match T1 with Some T1 => exp (- dur i / T1 i) | None => 1 end in
  let E2 := match T2 with Some T2 => exp (- dur i / T2 i) | None => 1 end in
  V3 (E2 * fst xy) (E2 * snd xy) (E1 * vz m - (E1 - 1)).

Close Scope R_scope.

(** The four compact attributes have the shapes [(N, nM)], [(N, nM)],
    [(N, nM)] and [(N, nM, xyz)]. *)
Definition attrs_shaped (o : SpinArrayObj) : Prop :=
  let sp := base o in
  shape sp <> [] /\
  slots o "T1_" = Some [batch sp; nM sp] /\
  slots o "T2_" = Some [batch sp; nM sp] /\
  slots o "γ_" = Some [batch sp; nM sp] /\
  slots o "M_" = Some [batch sp; nM sp; 3].

(** The objects a program can hold: those that [__init__] returned, and
    those left by an assignment that returned. *)
Inductive SpinArray_reachable : SpinArrayObj -> Prop :=
| reach_init shp msk T1 T2 γ M o :
    SpinArray_init shp msk T1 T2 γ M = Ok o ->
    SpinArray_reachable o
| reach_setattr o k_ v_ o' :
    SpinArray_reachable o ->
    SpinArray_setattr o k_ v_ = Ok o' ->
    SpinArray_reachable o'.

(** The location invariant: every compact location is
    [fov ⊙ normalized grid + ofst], the coordinate of the grid taken at the
    dense position of the spin and lying in [-0.5, 0.5). *)
Definition loc_invariant (c : SpinCube) : Prop :=
  let sp := spinarray c in
  forall n s i, n < batch sp -> s < nM sp -> i < 3 ->
    let g := grid_coord (Nd sp) i (spin_pos (mask sp) s) in
    comp i (nth (n * nM sp + s) (loc_ c) v0)
    = (comp i (brow (fov c) n) * g + comp i (brow (ofst c) n))%R
    /\ (- (1 / 2) <= g < 1 / 2)%R.

(** The cubes a program can hold: those that [__init__] returned, and those
    left by an assignment to [fov] or to [ofst], whether it returned or
    raised. *)
Inductive SpinCube_reachable : SpinCube -> Prop :=
| cube_init shp fv msk of_ Δf_ T1_ T2_ γ_ M_ c :
    SpinCube_init shp fv msk of_ Δf_ T1_ T2_ γ_ M_ = Ok c ->
    SpinCube_reachable c
| cube_set_fov c v_ :
    SpinCube_reachable c ->
    SpinCube_reachable (fst (SpinCube_set_fov c v_))
| cube_set_ofst c v_ :
    SpinCube_reachable c ->
    SpinCube_reachable (fst (SpinCube_set_ofst c v_)).


(** A cube whose mask fits its shape and whose location buffer has the
    compact size. *)
Definition cube_sized (c : SpinCube) : Prop :=
  mask_fits (spinarray c) /\
  length (loc_ c) = batch (spinarray c) * nM (spinarray c).

(** The compact index of a masked-in dense position: the number of
    masked-in positions before it. *)
Definition rank (m : list bool) (q : nat) : nat := count_true (firstn q m).

Definition rank_table (m : list bool) : list Z :=
  map (fun q => Z.of_nat (rank m q)) (seq 0 (length m)).

(** The entries of [crds] for the spatial axes: [crds[1:ndim]]. *)
Definition spatial_of (sp : SpinArray) (crds : list (list Z))
    : list (list Z) :=
  firstn (ndim sp - 1) (tl crds).

(** The spatial entries of [crds] select masked-in positions only. *)
Definition selects_masked (sp : SpinArray) (crds : list (list Z)) : Prop :=
  exists bs,
    adv_index sub_none (1 :: Nd sp) (mask sp) ([0%Z] :: spatial_of sp crds)
    = Ok bs /\
    Forall (fun b => b = true) bs.

(** The dense position that the spatial entries select at [j], and the
    compact indices of the positions selected. *)
Definition qd (dims : list nat) (spatial : list (list Z)) (j : nat) : nat :=
  match ravel dims (point spatial j) with
  | Ok q => q
  | Raise _ => 0
  end.

Definition sel (m : list bool) (dims : list nat) (spatial : list (list Z))
    (Ls : nat) : list Z :=
  map (fun j => Z.of_nat (rank m (qd dims spatial j))) (seq 0 Ls).

(** ** Moving a spin array to another device or dtype *)

(** Reading a slot that holds a tensor. *)
Definition get_slot (o : SpinArrayObj) (k : string) : result tshape :=
  match slots o k with
  | Some s => Ok s
  | None => Raise AttributeError
  end.

(** [SpinArray.to]; [same] stands for
    [self.device == device and self.dtype == dtype]. *)
Definition SpinArray_to (o : SpinArrayObj) (same : bool)
    : result SpinArrayObj :=
  if same then Ok o
  else
    T1 <- get_slot o "T1_" ;;
    T2 <- get_slot o "T2_" ;;
    γ <- get_slot o "γ_" ;;
    M <- get_slot o "M_" ;;
    SpinArray_init (shape (base o)) (Some (mask (base o))) T1 T2 γ M.

(** The spin array that [SpinCube.to] builds: it calls
    [SpinCube(self.shape, self.fov, ofst=..., Δf_=..., T1_=..., T2_=...,
    γ_=..., M_=..., device=..., dtype=...)], in which no mask is handed
    over, and [SpinCube.__init__] starts with
    [SpinArray(shape, mask, T1_=..., ...)]. *)
Definition SpinCube_to_spinarray (o : SpinArrayObj) (same : bool)
    : result SpinArrayObj :=
  if same then Ok o
  else
    T1 <- get_slot o "T1_" ;;
    T2 <- get_slot o "T2_" ;;
    γ <- get_slot o "γ_" ;;
    M <- get_slot o "M_" ;;
    SpinArray_init (shape (base o)) None T1 T2 γ M.

(** ** Pulse, on shapes *)

(** The values assigned to the attributes of a pulse: a tensor, by its
    shape, or a string. *)
Inductive pyval : Type :=
| VTensor (s : tshape)
| VStr (s : string).

(** The slots of a pulse that have been assigned. *)
Definition PulseObj : Type := string -> option pyval.

Definition Pulse_readonly : list string := ["device"; "dtype"]%string.
Definition Pulse_slots : list string :=
  Pulse_readonly ++ ["rf"; "gr"; "dt"; "desc"]%string.

Definition pulse_set (k : string) (v : pyval) (p : PulseObj) : PulseObj :=
  fun k' => if String.eqb k' k then Some v else p k'.

(** The conversion of an assigned value to a tensor, [v.to] for a tensor
    and [tensor(v)] otherwise: a string cannot be made a tensor. *)
Definition as_tensor (v : pyval) : result tshape :=
  match v with
  | VTensor s => Ok s
  | VStr _ => Raise TypeError
  end.

(** [s[i]] on a shape. *)
Definition dim_at (s : tshape) (i : nat) : result nat :=
  match nth_error s i with
  | Some n => Ok n
  | None => Raise IndexError
  end.

(** [self.rf.shape] and [self.gr.shape]. *)
Definition pulse_shape (p : PulseObj) (k : string) : result tshape :=
  match p k with
  | Some (VTensor s) => Ok s
  | _ => Raise AttributeError
  end.

(** [assert (v.shape[0] == shape[0] and v.shape[2] == shape[2])]. *)
Definition assert_same_N_nT (v shp : tshape) : result unit :=
  a <- dim_at v 0 ;;
  b <- dim_at shp 0 ;;
  if negb (a =? b) then Raise AssertionError
  else
    c <- dim_at v 2 ;;
    d <- dim_at shp 2 ;;
    py_assert (c =? d).

(** [Pulse.__setattr__]. *)
Definition Pulse_setattr (p : PulseObj) (k : string) (v : pyval)
    : result PulseObj :=
  _ <- py_assert (negb (mem k Pulse_readonly)) ;;
  v <- (if negb (String.eqb k "desc")
        then s <- as_tensor v ;; Ok (VTensor s)
        else Ok v) ;;
  _ <- (if String.eqb k "gr"
        then shp <- pulse_shape p "rf" ;;
             s <- as_tensor v ;; assert_same_N_nT s shp
        else Ok tt) ;;
  _ <- (if String.eqb k "rf"
        then shp <- pulse_shape p "gr" ;;
             s <- as_tensor v ;; assert_same_N_nT s shp
        else Ok tt) ;;
  if mem k Pulse_slots then Ok (pulse_set k v p) else Raise AttributeError.

(** [Pulse.__init__]; [device] and [dtype] are kept as names. *)
Definition Pulse_init (rf gr : option tshape) (dt desc : pyval)
    (device dtype : string) : result PulseObj :=
  _ <- py_assert (negb (is_none rf && is_none gr)) ;;
  rf' <- match rf with
         | Some s => Ok s
         | None =>
             match gr with
             | Some g => N <- dim_at g 0 ;; nT <- dim_at g 2 ;; Ok [N; 2; nT]
             | None => Raise AttributeError
             end
         end ;;
  gr' <- match gr with
         | Some s => Ok s
         | None => N <- dim_at rf' 0 ;; nT <- dim_at rf' 2 ;; Ok [N; 3; nT]
         end ;;
  _ <- assert_same_N_nT rf' gr' ;;
  let p : PulseObj :=
    pulse_set "gr" (VTensor gr')
      (pulse_set "rf" (VTensor rf')
         (pulse_set "dtype" (VStr dtype)
            (pulse_set "device" (VStr device) (fun _ => None)))) in
  p <- Pulse_setattr p "dt" dt ;;
  Pulse_setattr p "desc" desc.

(** The pulses a program can hold. *)
Inductive Pulse_reachable : PulseObj -> Prop :=
| pulse_init rf gr dt desc device dtype p :
    Pulse_init rf gr dt desc device dtype = Ok p ->
    Pulse_reachable p
| pulse_setattr p k v p' :
    Pulse_reachable p ->
    Pulse_setattr p k v = Ok p' ->
    Pulse_reachable p'.

(** [rf] and [gr] are tensors that agree on the batch size [N] and on the
    number of time points [nT]. *)
Definition rf_gr_agree (p : PulseObj) : Prop :=
  exists r g N nT,
    p "rf"%string = Some (VTensor r) /\ p "gr"%string = Some (VTensor g) /\
    nth_error r 0 = Some N /\ nth_error g 0 = Some N /\
    nth_error r 2 = Some nT /\ nth_error g 2 = Some nT.

(** What [SpinCube.__init__] needs of its arguments: a mask of the size of
    the spatial grid, three spatial axes at least, and rows of [fov] and of
    [ofst] that broadcast along the batch axis. *)
Definition cube_args_ok (shp : list nat) (fv : list vec3)
    (msk : option (list bool)) (of_ : list vec3) : bool :=
  let m := match msk with
           | None => repeat true (prod (tl shp))
           | Some m => m
           end in
  (length m =? prod (tl shp)) && (3 <=? length (tl shp))
  && (bc_rows (hd 0 shp) fv && bc_rows (hd 0 shp) of_).

(** ** slowsims: the propagator form *)

Open Scope R_scope.

(** A 3×3 matrix, by its rows. *)
Record mat3 : Type := M3 { row1 : vec3; row2 : vec3; row3 : vec3 }.

(** [A @ M[..., None]] for one spin. *)
Definition mv (A : mat3) (m : vec3) : vec3 :=
  V3 (dot (row1 A) m) (dot (row2 A) m) (dot (row3 A) m).

(** [blochsim_ab]: [(A @ M[..., None]).squeeze_(dim=-1) + B]; [A] and [B]
    are given by the matrix and the vector they hold at each spin. *)
Definition blochsim_ab (M : list vec3) (A : nat -> mat3) (B : nat -> vec3)
    : list vec3 :=
  mapi (fun i m => vadd (mv (A i) m) (B i)) M.

(** The product of two matrices, the identity, and the matrix of a map
    given on the unit vectors. *)
Definition col (j : nat) (A : mat3) : vec3 :=
  V3 (comp j (row1 A)) (comp j (row2 A)) (comp j (row3 A)).

Definition mm (A B : mat3) : mat3 :=
  M3 (V3 (dot (row1 A) (col 0 B)) (dot (row1 A) (col 1 B))
         (dot (row1 A) (col 2 B)))
     (V3 (dot (row2 A) (col 0 B)) (dot (row2 A) (col 1 B))
         (dot (row2 A) (col 2 B)))
     (V3 (dot (row3 A) (col 0 B)) (dot (row3 A) (col 1 B))
         (dot (row3 A) (col 2 B))).

Definition I3 : mat3 := M3 (V3 1 0 0) (V3 0 1 0) (V3 0 0 1).


Close Scope R_scope.

(** ** slowsims with the tensors in a store

    The loop of [blochsim] binds [M1] either to a new tensor, the one that
    [uϕrot] returns, or to [M] itself, and then relaxes [M1] in place.  Here
    the tensors live in a store and the variables hold addresses. *)

Definition heap : Type := list (list vec3).

Definition load (h : heap) (p : nat) : list vec3 := nth p h [].

Fixpoint store (h : heap) (p : nat) (v : list vec3) : heap :=
  match h, p with
  | [], _ => []
  | _ :: h', O => v :: h'
  | x :: h', S p' => x :: store h' p' v
  end.

(** A tensor returned by an operation that is not in place. *)
Definition alloc (h : heap) (v : list vec3) : heap * nat :=
  (h ++ [v], length h).

(** The body of the loop of [blochsim], which is the body of
    [blochsim_1step] too: the store it leaves and the address that [M1]
    holds, which the swap hands to [M].  The sources of [utils.uϕrot] are
    not at hand: its result is taken here as a tensor of its own, and what
    is proved of the store below holds as well if it were [M] itself. *)
Definition loop_body (E1 E1_1 E2 γ2πdt : bcast) (h : heap) (M : nat)
    (b : list vec3) : heap * nat :=
  let uϕ := mapi (fun i bi => beff2uϕ bi (γ2πdt i)) b in
  let hM1 :=
    if any_nonzero (map snd uϕ)
    then alloc h (map (fun p => uϕrot (fst (fst p)) (snd (fst p)) (snd p))
                    (combine uϕ (load h M)))
    else (h, M) in
  (store (fst hM1) (snd hM1) (relax E1 E1_1 E2 (load (fst hM1) (snd hM1))),
   snd hM1).

(** [blochsim_1step]: the store and the pair [(M, M1)] it returns. *)
Definition blochsim_1step (h : heap) (M M1 : nat) (b : list vec3)
    (E1 E1_1 E2 γ2πdt : bcast) : heap * (nat * nat) :=
  let r := loop_body E1 E1_1 E2 γ2πdt h M b in
  (fst r, (snd r, M)).

(** [blochsim] on the store: the store it leaves and the address of the
    tensor it returns. *)
Definition blochsim_h (h : heap) (M : nat) (Beff : list (list vec3))
    (T1 T2 : option bcast) (γ dt : bcast) : result (heap * nat) :=
  _ <- py_assert
         (forallb (fun b => length b =? length (load h M)) Beff) ;;
  let E1 : bcast := match T1 with
                    | None => fun _ => 1%R
                    | Some T1 => fun i => exp (- dt i / T1 i)
                    end in
  let E2 : bcast := match T2 with
                    | None => fun _ => 1%R
                    | Some T2 => fun i => exp (- dt i / T2 i)
                    end in
  let E1_1 : bcast := fun i => (E1 i - 1)%R in
  let γ2πdt : bcast := fun i => (2 * PI * γ i * dt i)%R in
  Ok (fold_left (fun s b => loop_body E1 E1_1 E2 γ2πdt (fst s) (snd s) b)
        Beff (h, M)).

(** Does a slice of the field turn a spin: [torch.any(ϕ != 0)]. *)
Definition turns (γ dt : bcast) (b : list vec3) : bool :=
  any_nonzero
    (map snd (mapi (fun i bi => beff2uϕ bi (2 * PI * γ i * dt i)%R) b)).

(** ** Calls with positional and keyword arguments *)

Section Calls.
Context {V : Type}.

(** The positional arguments of a call go to the parameters in order; one
    too many is a TypeError. *)
Fixpoint bind_positional (params : list string) (args : list V)
    : result (list (string * V)) :=
  match args, params with
  | [], _ => Ok []
  | a :: args', p :: params' =>
      env <- bind_positional params' args' ;; Ok ((p, a) :: env)
  | _ :: _, [] => Raise TypeError
  end.

Definition is_bound (k : string) (env : list (string * V)) : bool :=
  existsb (fun kv => String.eqb k (fst kv)) env.

(** The keyword arguments go to the parameters of their names; a name that
    is no parameter, or one that has a value already, is a TypeError. *)
Fixpoint bind_keywords (params : list string) (env : list (string * V))
    (kwargs : list (string * V)) : result (list (string * V)) :=
  match kwargs with
  | [] => Ok env
  | (k, v) :: kwargs' =>
      if negb (mem k params) then Raise TypeError
      else if is_bound k env then Raise TypeError
      else bind_keywords params ((k, v) :: env) kwargs'
  end.

Definition py_bind (params : list string) (args : list V)
    (kwargs : list (string * V)) : result (list (string * V)) :=
  env <- bind_positional params args ;;
  bind_keywords params env kwargs.

Context {T : Type}.
(** The body of [SpinArray.pulse2beff], run on the arguments once they are
    bound. *)
Variable pulse2beff_body : list (string * V) -> result T.

(** The parameters of [SpinArray.pulse2beff], after [self]. *)
Definition pulse2beff_params : list string :=
  ["pulse"; "doEmbed"; "loc"; "loc_"; "Δf"; "Δf_"; "b1Map"; "b1Map_"]%string.

(** A call of [SpinArray.pulse2beff]. *)
Definition SpinArray_pulse2beff (args : list V) (kwargs : list (string * V))
    : result T :=
  env <- py_bind pulse2beff_params args kwargs ;;
  pulse2beff_body env.

(** [SpinCube.pulse2beff]:
    [self.spinarray.pulse2beff(pulse, self.loc_, doEmbed=doEmbed,
    Δf=self.Δf, Δf_=self.Δf_, b1Map=b1Map, b1Map_=b1Map_)].  The argument
    [Δf] stands for the evaluation of [self.Δf], the dense view of the
    off-resonance, which takes place before the call. *)
Definition SpinCube_pulse2beff (pulse loc_ doEmbed : V) (Δf : result V)
    (Δf_ b1Map b1Map_ : V) : result T :=
  Δf <- Δf ;;
  SpinArray_pulse2beff [pulse; loc_]
    [("doEmbed", doEmbed); ("Δf", Δf); ("Δf_", Δf_); ("b1Map", b1Map);
     ("b1Map_", b1Map_)]%string.
End Calls.

(** Reading a slot of a pulse. *)
Definition pulse_get (p : PulseObj) (k : string) : result pyval :=
  match p k with
  | Some v => Ok v
  | None => Raise AttributeError
  end.

(** [Pulse.to]; [same] stands for the device and the dtype both being the
    ones the pulse has. *)
Definition Pulse_to (p : PulseObj) (same : bool) (device dtype : string)
    : result PulseObj :=
  if same then Ok p
  else
    rf <- pulse_shape p "rf" ;;
    gr <- pulse_shape p "gr" ;;
    dt <- pulse_get p "dt" ;;
    desc <- pulse_get p "desc" ;;
    Pulse_init (Some rf) (Some gr) dt desc device dtype.

(** * Properties *)

(** ** Masks *)

Lemma count_true_cons (b : bool) (m : list bool) :
  count_true (b :: m) = (if b then 1 else 0) + count_true m.
Proof. unfold count_true. destruct b; reflexivity. Qed.

Lemma count_true_app (m1 m2 : list bool) :
  count_true (m1 ++ m2) = count_true m1 + count_true m2.
Proof.
  unfold count_true. rewrite filter_app, length_app. reflexivity.
Qed.

Lemma length_expand_mask (n : nat) (m : list bool) :
  length (expand_mask n m) = n * length m.
Proof.
  unfold expand_mask. induction n as [|n IH]; simpl; [reflexivity|].
  rewrite length_app, IH. reflexivity.
Qed.

Lemma count_true_expand_mask (n : nat) (m : list bool) :
  count_true (expand_mask n m) = n * count_true m.
Proof.
  unfold expand_mask. induction n as [|n IH]; simpl; [reflexivity|].
  rewrite count_true_app, IH. reflexivity.
Qed.

Lemma expand_mask_S (n : nat) (m : list bool) :
  expand_mask (S n) m = m ++ expand_mask n m.
Proof. reflexivity. Qed.

Lemma nth_expand_mask (n : nat) (m : list bool) (k p : nat) :
  k < n -> p < length m ->
  nth (k * length m + p) (expand_mask n m) false = nth p m false.
Proof.
  revert k. induction n as [|n IH]; intros k Hk Hp; [lia|].
  rewrite expand_mask_S. destruct k as [|k].
  - simpl. rewrite app_nth1 by assumption. reflexivity.
  - rewrite app_nth2 by (simpl; lia).
    replace (S k * length m + p - length m) with (k * length m + p)
      by (simpl; lia).
    apply IH; lia.
Qed.

Section MaskedFacts.
Context {A : Type}.

Lemma length_masked_select (m : list bool) (v : list A) :
  length v = length m -> length (masked_select m v) = count_true m.
Proof.
  revert v. induction m as [|b m IH]; intros [|x v] H; simpl in *;
    try reflexivity; try discriminate.
  rewrite count_true_cons. injection H as H.
  destruct b; simpl; rewrite IH by assumption; reflexivity.
Qed.

Lemma length_masked_assign (m : list bool) (out src : list A) :
  length (masked_assign m out src) = length out.
Proof.
  revert out src. induction m as [|b m IH]; intros [|o out] src; simpl;
    try reflexivity.
  destruct b; [destruct src|]; simpl; rewrite IH; reflexivity.
Qed.

(** A true position of [out[mask] = src] holds the entry of [src] whose
    rank is the number of true positions before it. *)
Lemma masked_assign_true (m : list bool) (out src : list A) (p : nat) :
  length out = length m -> length src = count_true m ->
  nth p m false = true ->
  nth_error (masked_assign m out src) p
  = nth_error src (count_true (firstn p m)).
Proof.
  revert out src p. induction m as [|b m IH]; intros out src p Ho Hs Hp.
  - destruct p; discriminate.
  - destruct out as [|o out]; [discriminate|]. injection Ho as Ho.
    rewrite count_true_cons in Hs. destruct p as [|p].
    + simpl in Hp. subst b. destruct src as [|s src]; [discriminate|].
      reflexivity.
    + simpl in Hp. rewrite firstn_cons, count_true_cons.
      destruct b.
      * destruct src as [|s src]; [discriminate|]. simpl.
        apply IH; simpl in Hs; auto; lia.
      * simpl. apply IH; auto.
Qed.

(** A false position keeps what [out] held. *)
Lemma masked_assign_false (m : list bool) (out src : list A) (p : nat) :
  nth p m false = false ->
  nth_error (masked_assign m out src) p = nth_error out p.
Proof.
  revert out src p. induction m as [|b m IH]; intros out src p Hp.
  - destruct out; reflexivity.
  - destruct out as [|o out]; [reflexivity|]. destruct p as [|p].
    + simpl in Hp. subst b. reflexivity.
    + simpl in Hp. destruct b; [destruct src|]; simpl; apply IH; auto.
Qed.

(** The entry of rank [count_true (firstn p m)] of [v[mask]] is [v[p]]. *)
Lemma masked_select_rank (m : list bool) (v : list A) (p : nat) :
  length v = length m -> nth p m false = true ->
  nth_error (masked_select m v) (count_true (firstn p m)) = nth_error v p.
Proof.
  revert v p. induction m as [|b m IH]; intros v p Hv Hp.
  - destruct p; discriminate.
  - destruct v as [|x v]; [discriminate|]. injection Hv as Hv.
    destruct p as [|p].
    + simpl in Hp. subst b. reflexivity.
    + simpl in Hp. rewrite firstn_cons, count_true_cons.
      destruct b; simpl; apply IH; auto.
Qed.
End MaskedFacts.

Lemma count_true_firstn_expand (n : nat) (m : list bool) (k p : nat) :
  k < n -> p <= length m ->
  count_true (firstn (k * length m + p) (expand_mask n m))
  = k * count_true m + count_true (firstn p m).
Proof.
  revert k. induction n as [|n IH]; intros k Hk Hp; [lia|].
  rewrite expand_mask_S. destruct k as [|k].
  - simpl. rewrite firstn_app.
    replace (p - length m) with 0 by lia.
    rewrite firstn_O, app_nil_r. reflexivity.
  - rewrite firstn_app.
    rewrite firstn_all2 by (simpl; lia).
    replace (S k * length m + p - length m) with (k * length m + p)
      by (simpl; lia).
    rewrite count_true_app.
    destruct n as [|n]; [lia|].
    rewrite IH by lia. simpl. lia.
Qed.

(** ** Round trip of the masked mapping *)

Section RoundTrip.
Context {A : Type}.
Variable nan : A.

Lemma extract_ok (sp : SpinArray) (X : list A) :
  length X = batch sp * numel sp ->
  extract sp X = Ok (masked_select (expand_mask (batch sp) (mask sp)) X).
Proof.
  intros HX. unfold extract.
  rewrite length_expand_mask. fold (numel sp). rewrite HX, Nat.eqb_refl.
  simpl. rewrite length_masked_select
    by (rewrite length_expand_mask; exact HX).
  rewrite count_true_expand_mask. fold (nM sp). rewrite Nat.eqb_refl.
  reflexivity.
Qed.

Lemma embed_ok (sp : SpinArray) (v_ : list A) :
  length v_ = batch sp * nM sp ->
  embed nan sp v_
  = Ok (masked_assign (expand_mask (batch sp) (mask sp))
          (repeat nan (batch sp * numel sp)) v_).
Proof.
  intros Hv. unfold embed. rewrite count_true_expand_mask. fold (nM sp).
  rewrite Hv, Nat.eqb_refl. reflexivity.
Qed.

(** C1. For a spin array of batch size [N] and a dense array [X] of shape
    [(N, *Nd, ...)], [embed(extract(X))] returns a dense array of the same
    size that equals [X] at every masked-in position and holds NaN at every
    other position. *)
Theorem embed_extract_roundtrip (sp : SpinArray) (X : list A) :
  length X = batch sp * numel sp ->
  exists Y,
    (v_ <- extract sp X ;; embed nan sp v_) = Ok Y /\
    length Y = length X /\
    forall n p, n < batch sp -> p < numel sp ->
      (nth p (mask sp) false = true ->
       nth_error Y (n * numel sp + p) = nth_error X (n * numel sp + p)) /\
      (nth p (mask sp) false = false ->
       nth_error Y (n * numel sp + p) = Some nan).
Proof.
  intros HX.
  assert (HM : length X = length (expand_mask (batch sp) (mask sp)))
    by (rewrite length_expand_mask; exact HX).
  assert (Hsel : length (masked_select (expand_mask (batch sp) (mask sp)) X)
                 = batch sp * nM sp)
    by (rewrite length_masked_select, count_true_expand_mask; auto).
  rewrite extract_ok by assumption. simpl. rewrite embed_ok by assumption.
  eexists. split; [reflexivity|]. split.
  - rewrite length_masked_assign, repeat_length. symmetry. exact HX.
  - intros n p Hn Hp. unfold numel in *. split; intros Hb.
    + rewrite masked_assign_true.
      * apply masked_select_rank; [exact HM|].
        rewrite nth_expand_mask; assumption.
      * rewrite repeat_length, length_expand_mask. reflexivity.
      * rewrite Hsel, count_true_expand_mask. reflexivity.
      * rewrite nth_expand_mask; assumption.
    + rewrite masked_assign_false
        by (rewrite nth_expand_mask; assumption).
      apply nth_error_repeat. nia.
Qed.
End RoundTrip.

Lemma embed_extract_roundtrip_witness :
  let sp := mkSpinArray [2; 2; 2] [true; false; false; true] in
  let X := [10; 11; 12; 13; 20; 21; 22; 23] in
  length X = batch sp * numel sp /\
  exists Y,
    (v_ <- extract sp X ;; embed 0 sp v_) = Ok Y /\
    length Y = length X /\
    forall n p, n < batch sp -> p < numel sp ->
      (nth p (mask sp) false = true ->
       nth_error Y (n * numel sp + p) = nth_error X (n * numel sp + p)) /\
      (nth p (mask sp) false = false ->
       nth_error Y (n * numel sp + p) = Some 0).
Proof.
  intros sp X. split; [reflexivity|].
  apply (embed_extract_roundtrip 0 sp X). reflexivity.
Defined.

(** ** The helper [mask_] *)

(** C10. [SpinArray.mask_] raises for every tensor argument, and so does
    [SpinCube.mask_], which hands the argument over: the argument is called
    on the stored mask, and a tensor cannot be called. *)
Theorem mask__raises_on_tensor (t : list bool) :
  (forall sp, mask_ sp (PyTensor t) = Raise TypeError) /\
  (forall c, SpinCube_mask_ c (PyTensor t) = Raise TypeError).
Proof. split; intros; reflexivity. Qed.

(** ** Shapes of the compact attributes *)

Lemma expand_size (s size r : tshape) : expand s size = Ok r -> r = size.
Proof.
  unfold expand. destruct (expandable_rev _ _); intros H;
    [injection H as H; congruence | discriminate].
Qed.

Lemma shape_eqb_true (s t : tshape) : shape_eqb s t = true -> s = t.
Proof.
  unfold shape_eqb. destruct (list_eq_dec _ _ _); [auto | discriminate].
Qed.

Lemma py_assert_ok (c : bool) (u : unit) : py_assert c = Ok u -> c = true.
Proof. destruct c; [reflexivity | discriminate]. Qed.

Lemma bind_ok {A B : Type} (r : result A) (k : A -> result B) (y : B) :
  bind r k = Ok y -> exists a, r = Ok a /\ k a = Ok y.
Proof.
  destruct r as [a|e]; simpl; intros H; [eauto | discriminate].
Qed.

Ltac bind_inv H :=
  let E := fresh "E" in
  let a := fresh "a" in
  apply bind_ok in H; destruct H as (a & E & H); cbn beta in H.

(** What an assignment that returns has done: one compact slot was set, to
    a tensor of the shape kept for that slot. *)
Lemma SpinArray_setattr_ok (o o' : SpinArrayObj) (k_ : string) (v_ : tshape) :
  SpinArray_setattr o k_ v_ = Ok o' ->
  exists k v,
    o' = set_slot k v o /\ mem k _compact = true /\
    (mem (k_ ++ "_") _compact = false -> k = k_) /\
    (if String.eqb k "M_"
     then v = firstn 1 (shape (base o)) ++ [nM (base o); 3]
     else shape (base o) <> [] /\ v = [batch (base o); nM (base o)]).
Proof.
  unfold SpinArray_setattr. intros H.
  bind_inv H. apply py_assert_ok in E. bind_inv H. destruct a0 as [k v].
  cbn [fst snd] in H. bind_inv H.
  assert (Hk : mem k __slots__ = true /\ o' = set_slot k a0 o).
  { unfold object_setattr in H. destruct (mem k __slots__);
      [injection H as H; auto | discriminate]. }
  destruct Hk as [Hk ->]. clear H.
  assert (Hc : mem k _compact = true /\
               (mem (k_ ++ "_") _compact = false -> k = k_)).
  { destruct (mem (k_ ++ "_") _compact) eqn:Hm.
    - bind_inv E0. bind_inv E0. bind_inv E0. injection E0 as <- <-.
      split; [exact Hm | discriminate].
    - injection E0 as <- <-. split; [|reflexivity].
      unfold __slots__, mem in Hk.
      rewrite existsb_app in Hk. apply orb_true_iff in Hk.
      destruct Hk as [Hk|Hk]; [|exact Hk].
      unfold mem in E. rewrite Hk in E. discriminate. }
  destruct Hc as [Hc Hsame].
  exists k, a0. split; [reflexivity|]. split; [exact Hc|].
  split; [exact Hsame|].
  destruct (String.eqb k "M_") eqn:HM.
  - destruct (shape_eqb v _) eqn:Hv; simpl in E1.
    + injection E1 as <-. apply shape_eqb_true. exact Hv.
    + apply expand_size in E1. exact E1.
  - rewrite Hc in E1. bind_inv E1. apply expand_size in E1.
    unfold shape0 in E2. unfold batch.
    destruct (shape (base o)) as [|n0 s]; [discriminate|].
    injection E2 as <-. split; [discriminate | exact E1].
Qed.

Lemma set_slot_same (k : string) (v : tshape) (o : SpinArrayObj) :
  slots (set_slot k v o) k = Some v.
Proof. simpl. rewrite String.eqb_refl. reflexivity. Qed.

Lemma set_slot_other (k k' : string) (v : tshape) (o : SpinArrayObj) :
  k' <> k -> slots (set_slot k v o) k' = slots o k'.
Proof.
  intros H. simpl. destruct (String.eqb k' k) eqn:E; [|reflexivity].
  apply String.eqb_eq in E. contradiction.
Qed.

Lemma mem_compact (k : string) :
  mem k _compact = true ->
  k = "T1_"%string \/ k = "T2_"%string \/ k = "γ_"%string \/ k = "M_"%string.
Proof.
  unfold mem, _compact. simpl.
  rewrite orb_false_r, !orb_true_iff, !String.eqb_eq. tauto.
Qed.

Lemma setattr_keeps_shaped (o o' : SpinArrayObj) (k_ : string) (v_ : tshape) :
  attrs_shaped o -> SpinArray_setattr o k_ v_ = Ok o' -> attrs_shaped o'.
Proof.
  intros (Hs & H1 & H2 & H3 & H4) H.
  apply SpinArray_setattr_ok in H.
  destruct H as (k & v & -> & Hc & _ & Hv).
  apply mem_compact in Hc.
  assert (HM : firstn 1 (shape (base o)) ++ [nM (base o); 3]
               = [batch (base o); nM (base o); 3]).
  { unfold batch. destruct (shape (base o)); [contradiction | reflexivity]. }
  rewrite HM in Hv. unfold attrs_shaped. simpl base.
  destruct Hc as [-> | [-> | [-> | ->]]]; cbn in Hv;
    [destruct Hv as [_ ->] | destruct Hv as [_ ->] | destruct Hv as [_ ->]
    | subst v];
    (split; [exact Hs|]);
    repeat split;
    first [ apply set_slot_same
          | rewrite set_slot_other by discriminate; assumption ].
Qed.

Lemma init_shaped shp msk T1 T2 γ M o :
  SpinArray_init shp msk T1 T2 γ M = Ok o -> attrs_shaped o.
Proof.
  unfold SpinArray_init. intros H.
  bind_inv H. bind_inv H. bind_inv H. bind_inv H.
  apply SpinArray_setattr_ok in E0, E1, E2, H.
  destruct E0 as (k0 & w0 & -> & _ & K0 & Hv0).
  destruct E1 as (k1 & w1 & -> & _ & K1 & Hv1).
  destruct E2 as (k2 & w2 & -> & _ & K2 & Hv2).
  destruct H as (k3 & w3 & -> & _ & K3 & Hv3).
  rewrite (K0 eq_refl) in *. rewrite (K1 eq_refl) in *.
  rewrite (K2 eq_refl) in *. rewrite (K3 eq_refl) in *.
  simpl in Hv0, Hv1, Hv2, Hv3.
  destruct Hv0 as [Hs ->]. destruct Hv1 as [_ ->]. destruct Hv2 as [_ ->].
  subst w3. unfold attrs_shaped. simpl.
  split; [exact Hs|]. unfold batch.
  destruct (shape a) as [|n s]; [contradiction|]. auto.
Qed.

(** C9. Every spin array that a construction or a chain of assignments has
    returned holds [T1_], [T2_] and [γ_] of shape [(N, nM)] and [M_] of shape
    [(N, nM, 3)], whatever the shapes of the values that were assigned. *)
Theorem compact_attrs_shape (o : SpinArrayObj) :
  SpinArray_reachable o -> attrs_shaped o.
Proof.
  induction 1 as [shp msk T1 T2 γ M o H | o k_ v_ o' _ IH H].
  - eapply init_shaped; eassumption.
  - eapply setattr_keeps_shaped; eassumption.
Qed.

Lemma compact_attrs_shape_witness :
  let sp := mkSpinArray [2; 2; 2] [true; false; true; true] in
  exists o o1 o2,
    SpinArray_init [2; 2; 2] (Some (mask sp)) [] [2; 1] [1; 3] [3] = Ok o /\
    SpinArray_setattr o "T1" [2; 2; 2] = Ok o1 /\
    SpinArray_setattr o1 "M_" [2; 1; 3] = Ok o2 /\
    SpinArray_reachable o2 /\ attrs_shaped o2.
Proof.
  intros sp. do 3 eexists.
  split; [reflexivity|]. split; [reflexivity|]. split; [reflexivity|].
  assert (R : SpinArray_reachable
                (set_slot "M_" [2; 3; 3]
                   (set_slot "T1_" [2; 3]
                      (set_slot "M_" [2; 3; 3]
                         (set_slot "γ_" [2; 3]
                            (set_slot "T2_" [2; 3]
                               (set_slot "T1_" [2; 3]
                                  (mkObj sp (fun _ => None))))))))).
  { eapply reach_setattr with (k_ := "M_"%string) (v_ := [2; 1; 3]).
    - eapply reach_setattr with (k_ := "T1"%string) (v_ := [2; 2; 2]).
      + eapply reach_init
          with (shp := [2; 2; 2]) (msk := Some (mask sp)) (T1 := [])
               (T2 := [2; 1]) (γ := [1; 3]) (M := [3]).
        reflexivity.
      + reflexivity.
    - reflexivity. }
  split; [exact R|]. exact (compact_attrs_shape R).
Defined.

(** ** The simulators *)

Open Scope R_scope.

Lemma mapi_from_ext {A B : Type} (f g : nat -> A -> B) (l : list A) (k : nat) :
  (forall i a, f i a = g i a) -> mapi_from k f l = mapi_from k g l.
Proof.
  intros H. revert k. induction l as [|x l IH]; intros k; simpl;
    [reflexivity|]. rewrite H, IH. reflexivity.
Qed.

Lemma mapi_from_id {A : Type} (f : nat -> A -> A) (l : list A) (k : nat) :
  (forall i a, f i a = a) -> mapi_from k f l = l.
Proof.
  intros H. revert k. induction l as [|x l IH]; intros k; simpl;
    [reflexivity|]. rewrite H, IH. reflexivity.
Qed.

Lemma mapi_from_mapi_from {A B C : Type} (f : nat -> B -> C)
    (g : nat -> A -> B) (l : list A) (k : nat) :
  mapi_from k f (mapi_from k g l) = mapi_from k (fun i a => f i (g i a)) l.
Proof.
  revert k. induction l as [|x l IH]; intros k; simpl; [reflexivity|].
  rewrite IH. reflexivity.
Qed.

Lemma length_mapi_from {A B : Type} (f : nat -> A -> B) (l : list A) (k : nat) :
  length (mapi_from k f l) = length l.
Proof.
  revert k. induction l as [|x l IH]; intros k; simpl; [reflexivity|].
  rewrite IH. reflexivity.
Qed.

Lemma vec3_eq (a b : vec3) :
  vx a = vx b -> vy a = vy b -> vz a = vz b -> a = b.
Proof. destruct a, b. simpl. intros -> -> ->. reflexivity. Qed.

(** C7. [freeprec] raises exactly when one of [T1] and [T2] is given and the
    other is not; with both or with neither it returns a magnetization for
    every spin. *)
Theorem freeprec_both_or_neither (M : list vec3) (dur : bcast)
    (T1 T2 Δf : option bcast) :
  if Bool.eqb (is_none T1) (is_none T2)
  then exists r, freeprec M dur T1 T2 Δf = Ok r /\ length r = length M
  else freeprec M dur T1 T2 Δf = Raise AssertionError.
Proof.
  unfold freeprec.
  destruct T1 as [T1|], T2 as [T2|]; simpl; try reflexivity;
    eexists; (split; [reflexivity|]);
    destruct Δf; unfold mapi; rewrite ?length_mapi_from; reflexivity.
Qed.

(** C2. With [T1] and [T2] both given or both left out, [freeprec] returns,
    for every spin, the magnetization of the closed-form law: [(x, y)] turned
    by [ϕ = -2π·Δf·dur] when [Δf] is given and kept otherwise, then
    [(E2·x', E2·y', E1·z - (E1 - 1))] with [E1 = exp(-dur/T1)] and
    [E2 = exp(-dur/T2)], and [E1 = E2 = 1] when no relaxation is given. *)
Theorem freeprec_closed_form (M : list vec3) (dur : bcast)
    (T12 : option (bcast * bcast)) (Δf : option bcast) :
  let T1 := option_map fst T12 in
  let T2 := option_map snd T12 in
  freeprec M dur T1 T2 Δf = Ok (mapi (freeprec_law dur T1 T2 Δf) M).
Proof.
  unfold freeprec, mapi.
  destruct T12 as [[T1 T2]|], Δf as [Δf|]; simpl; f_equal.
  - rewrite mapi_from_mapi_from. apply mapi_from_ext. intros i m.
    unfold freeprec_law. simpl.
    replace (- 2 * PI * Δf i * dur i) with (- (2 * PI) * Δf i * dur i) by ring.
    apply vec3_eq; simpl; ring.
  - apply mapi_from_ext. intros i m. unfold freeprec_law.
    apply vec3_eq; simpl; ring.
  - apply mapi_from_ext. intros i m. unfold freeprec_law. simpl.
    replace (- 2 * PI * Δf i * dur i) with (- (2 * PI) * Δf i * dur i) by ring.
    apply vec3_eq; simpl; ring.
  - symmetry. apply mapi_from_id. intros i m. unfold freeprec_law.
    apply vec3_eq; simpl; ring.
Qed.

Lemma norm_scale_v0 (g : R) : norm (scale g v0) = 0.
Proof.
  unfold norm, dot, scale, v0. simpl.
  replace (g * 0 * (g * 0) + g * 0 * (g * 0) + g * 0 * (g * 0)) with 0 by ring.
  apply sqrt_0.
Qed.

Lemma any_nonzero_zero_field (g : bcast) (n k : nat) :
  any_nonzero
    (map snd (mapi_from k (fun i bi => beff2uϕ bi (g i)) (repeat v0 n)))
  = false.
Proof.
  revert k. induction n as [|n IH]; intros k; simpl; [reflexivity|].
  rewrite norm_scale_v0.
  destruct (Req_dec_T 0 0) as [_|H]; [|contradiction H; reflexivity].
  simpl. apply IH.
Qed.

(** No field: every angle is zero and the rotation is left out. *)
Lemma rotate_zero_field (g : bcast) (n : nat) (M : list vec3) :
  rotate g (repeat v0 n) M = M.
Proof.
  unfold rotate, mapi. rewrite any_nonzero_zero_field. reflexivity.
Qed.

Lemma zero_field_shapes (n nT : nat) :
  forallb (fun b => (length b =? n)%nat) (repeat (repeat v0 n) nT) = true.
Proof.
  induction nT as [|nT IH]; simpl; [reflexivity|].
  rewrite repeat_length, Nat.eqb_refl. exact IH.
Qed.

(** A magnetization that the relaxation keeps is kept by any number of steps
    without field. *)
Lemma steps_zero_field (E1 E1_1 E2 g : bcast) (M : list vec3) (n nT : nat) :
  relax E1 E1_1 E2 M = M ->
  fold_left (fun M b => relax E1 E1_1 E2 (rotate g b M))
    (repeat (repeat v0 n) nT) M = M.
Proof.
  intros H. induction nT as [|nT IH]; simpl; [reflexivity|].
  rewrite rotate_zero_field, H. exact IH.
Qed.

(** C3. With a field that is zero at every spin and every time step, and
    with neither [T1] nor [T2], [blochsim] returns the magnetization it was
    given, for every number of time steps: every angle is zero, so the
    rotation is left out, and [E1 = E2 = 1] make the relaxation lines the
    identity. *)
Theorem blochsim_zero_field_fixed (M : list vec3) (nT : nat) (γ dt : bcast) :
  blochsim M (repeat (repeat v0 (length M)) nT) None None γ dt = Ok M.
Proof.
  unfold blochsim. rewrite zero_field_shapes. simpl. f_equal.
  apply steps_zero_field. unfold relax, mapi.
  apply mapi_from_id. intros i m. apply vec3_eq; simpl; ring.
Qed.

(** C8. A single spin at equilibrium, [M = [0, 0, 1]], with [T1 = 1],
    [T2 = 0.04] and no field during 512 steps of [dt = 1e-3], is returned at
    equilibrium: no rotation takes place, and the relaxation lines send
    [(0, 0, 1)] to [(E2·0, E2·0, E1·1 - (E1 - 1)) = (0, 0, 1)] at each
    step. *)
Theorem blochsim_equilibrium (γ : bcast) :
  blochsim [V3 0 0 1] (repeat [v0] 512)
    (Some (fun _ => 1)) (Some (fun _ => 0.04)) γ (fun _ => 1e-3)
  = Ok [V3 0 0 1].
Proof.
  unfold blochsim.
  change (repeat [v0] 512) with (repeat (repeat v0 1) 512).
  change (length [V3 0 0 1]) with 1%nat.
  rewrite zero_field_shapes. cbn [bind py_assert]. f_equal.
  apply steps_zero_field.
  unfold relax, mapi. cbn [mapi_from]. f_equal.
  apply vec3_eq; cbn [vx vy vz]; ring.
Qed.

(** ** Rotation *)

Lemma dot_self_pos (b : vec3) : b <> v0 -> 0 < dot b b.
Proof.
  intros H. destruct b as [x y z]. unfold dot. simpl.
  destruct (Req_dec_T x 0) as [Hx|Hx]; [|nra].
  destruct (Req_dec_T y 0) as [Hy|Hy]; [|nra].
  destruct (Req_dec_T z 0) as [Hz|Hz]; [|nra].
  subst. contradiction H. reflexivity.
Qed.

(** The axis of a field that is not zero is a unit vector. *)
Lemma axis_unit (b : vec3) (g : R) :
  b <> v0 -> dot (fst (beff2uϕ b g)) (fst (beff2uϕ b g)) = 1.
Proof.
  intros H. apply dot_self_pos in H. unfold beff2uϕ, norm. simpl.
  set (n := sqrt (dot b b)).
  assert (Hn : n * n = dot b b) by (apply sqrt_sqrt; lra).
  assert (Hn0 : n <> 0) by (intros E; rewrite E in Hn; lra).
  unfold dot, scale in *. simpl.
  replace (/ n * vx b * (/ n * vx b) + / n * vy b * (/ n * vy b)
           + / n * vz b * (/ n * vz b))
    with ((vx b * vx b + vy b * vy b + vz b * vz b) / (n * n))
    by (field; exact Hn0).
  rewrite <- Hn. field. exact Hn0.
Qed.

(** Rodrigues' formula about a unit axis keeps the squared length. *)
Lemma rodrigues_dot (u : vec3) (ϕ : R) (M : vec3) :
  dot u u = 1 -> dot (uϕrot u ϕ M) (uϕrot u ϕ M) = dot M M.
Proof.
  intros Hu.
  assert (Hcs : cos ϕ * cos ϕ + sin ϕ * sin ϕ = 1).
  { pose proof (sin2_cos2 ϕ) as H. unfold Rsqr in H. lra. }
  destruct u as [ux uy uz], M as [x y z].
  unfold uϕrot, dot, vadd, scale, cross in *. simpl in *.
  set (c := cos ϕ) in *. set (s := sin ϕ) in *.
  set (U := ux * ux + uy * uy + uz * uz) in *.
  set (D := ux * x + uy * y + uz * z).
  set (MM := x * x + y * y + z * z).
  transitivity (MM + (c * c + s * s - 1) * (MM - D * D)
                + (U - 1) * (s * s * MM + (1 - c) * (1 - c) * D * D)).
  - unfold U, D, MM. ring.
  - rewrite Hu, Hcs. ring.
Qed.

Lemma rodrigues_norm (b : vec3) (g : R) (M : vec3) :
  b <> v0 ->
  norm (uϕrot (fst (beff2uϕ b g)) (snd (beff2uϕ b g)) M) = norm M.
Proof.
  intros H. unfold norm. f_equal. apply rodrigues_dot. apply axis_unit.
  exact H.
Qed.

Lemma rotate_all_norm (g : bcast) (b M : list vec3) (k : nat) :
  length b = length M -> Forall (fun bi => bi <> v0) b ->
  map norm
    (map (fun p => uϕrot (fst (fst p)) (snd (fst p)) (snd p))
       (combine (mapi_from k (fun i bi => beff2uϕ bi (g i)) b) M))
  = map norm M.
Proof.
  revert M k. induction b as [|bi b IH]; intros [|m M] k Hl Hb; simpl in *;
    try reflexivity; try discriminate.
  inversion Hb as [|? ? Hbi Hb']; subst. injection Hl as Hl. f_equal.
  - apply (rodrigues_norm (g k) m Hbi).
  - apply IH; assumption.
Qed.

(** C4. In a step without relaxation, the rotation lines of the loop keep
    the magnitude of the magnetization of every spin whose field is not
    zero: the magnetization is turned about the unit axis [b/|b|] by the
    angle [|γ·2π·dt·b|].  The statement is for a batch in which no field is
    zero; a single spin is the batch of one. *)
Theorem rotation_preserves_magnitude (γ2πdt : bcast) (b M : list vec3) :
  length b = length M -> Forall (fun bi => bi <> v0) b ->
  map norm (rotate γ2πdt b M) = map norm M.
Proof.
  intros Hl Hb. unfold rotate, mapi.
  destruct (any_nonzero _); [|reflexivity].
  apply rotate_all_norm; assumption.
Qed.

Lemma rotation_preserves_magnitude_witness :
  let b := [V3 1 0 0] in
  let M := [V3 0 0 1] in
  length b = length M /\ Forall (fun bi => bi <> v0) b /\
  map norm (rotate (fun _ => PI / 2) b M) = map norm M.
Proof.
  intros b M.
  assert (Hb : Forall (fun bi => bi <> v0) b).
  { constructor; [|constructor]. intros E. injection E as E. lra. }
  split; [reflexivity|]. split; [exact Hb|].
  apply (@rotation_preserves_magnitude (fun _ => PI / 2) b M eq_refl Hb).
Defined.

Close Scope R_scope.

(** ** Grids and locations *)

Lemma nth_flat_map_repeat {A : Type} (c : list A) (P p : nat) (d : A) :
  p < length c * P ->
  nth p (flat_map (fun x => repeat x P) c) d = nth (p / P) c d.
Proof.
  revert p. induction c as [|x c IH]; intros p Hp; simpl in *; [lia|].
  assert (HP : P <> 0) by (intros ->; lia).
  destruct (Nat.lt_ge_cases p P) as [Hlt|Hge].
  - rewrite app_nth1 by (rewrite repeat_length; exact Hlt).
    rewrite Nat.div_small by exact Hlt.
    apply nth_repeat_lt. exact Hlt.
  - rewrite app_nth2 by (rewrite repeat_length; exact Hge).
    rewrite repeat_length.
    replace p with ((p - P) + 1 * P) at 2 by lia.
    rewrite Nat.div_add by exact HP.
    replace ((p - P) / P + 1) with (S ((p - P) / P)) by lia.
    apply IH. lia.
Qed.

Lemma nth_concat_repeat {A : Type} (g : list A) (n p : nat) (d : A) :
  p < n * length g ->
  nth p (concat (repeat g n)) d = nth (p mod length g) g d.
Proof.
  revert p. induction n as [|n IH]; intros p Hp; simpl in *; [lia|].
  destruct (Nat.lt_ge_cases p (length g)) as [Hlt|Hge].
  - rewrite app_nth1 by exact Hlt. rewrite Nat.mod_small by exact Hlt.
    reflexivity.
  - rewrite app_nth2 by exact Hge.
    replace p with ((p - length g) + 1 * length g) at 2 by lia.
    rewrite Nat.Div0.mod_add. apply IH. lia.
Qed.

Lemma length_flat_map_repeat {A : Type} (c : list A) (P : nat) :
  length (flat_map (fun x => repeat x P) c) = length c * P.
Proof.
  induction c as [|x c IH]; simpl; [reflexivity|].
  rewrite length_app, repeat_length, IH. reflexivity.
Qed.

Lemma length_concat_repeat {A : Type} (g : list A) (n : nat) :
  length (concat (repeat g n)) = n * length g.
Proof.
  induction n as [|n IH]; simpl; [reflexivity|].
  rewrite length_app, IH. reflexivity.
Qed.

(** The [i]-th grid of [meshgrid] holds, at a row-major offset, the entry of
    the [i]-th vector at the [i]-th coordinate of the offset. *)
Lemma meshgrid_spec (cs : list (list R)) (i : nat) (g : list R) :
  nth_error (meshgrid cs) i = Some g ->
  length g = prod (map (@length R) cs) /\
  forall p, p < prod (map (@length R) cs) ->
    nth p g 0%R
    = nth (nth i (unravel (map (@length R) cs) p) 0) (nth i cs []) 0%R.
Proof.
  revert i g. induction cs as [|c cs IH]; intros i g Hg.
  - destruct i; discriminate.
  - simpl in Hg. destruct i as [|i].
    + injection Hg as <-. simpl. split.
      * apply length_flat_map_repeat.
      * intros p Hp. apply nth_flat_map_repeat. exact Hp.
    + simpl in Hg. rewrite nth_error_map in Hg.
      destruct (nth_error (meshgrid cs) i) as [g'|] eqn:E; [|discriminate].
      injection Hg as <-. destruct (IH i g' E) as [Hl Hn]. simpl. split.
      * rewrite length_concat_repeat, Hl. reflexivity.
      * intros p Hp. rewrite nth_concat_repeat by (rewrite Hl; exact Hp).
        rewrite Hl. apply Hn. apply Nat.mod_upper_bound.
        intros E0. rewrite E0 in Hp. lia.
Qed.

Lemma length_meshgrid (cs : list (list R)) :
  length (meshgrid cs) = length cs.
Proof.
  induction cs as [|c cs IH]; simpl; [reflexivity|].
  rewrite length_map, IH. reflexivity.
Qed.

Lemma unravel_bound (dims : list nat) (p i : nat) :
  p < prod dims -> i < length dims ->
  nth i (unravel dims p) 0 < nth i dims 0.
Proof.
  revert p i. induction dims as [|d dims IH]; intros p i Hp Hi; simpl in *;
    [lia|].
  assert (HP : prod dims <> 0) by (intros E; rewrite E in Hp; lia).
  destruct i as [|i].
  - apply Nat.Div0.div_lt_upper_bound. lia.
  - apply IH; [|lia]. apply Nat.mod_upper_bound. exact HP.
Qed.

Lemma masked_select_map {A B : Type} (f : A -> B) (m : list bool) (l : list A) :
  masked_select m (map f l) = map f (masked_select m l).
Proof.
  revert l. induction m as [|b m IH]; intros [|x l]; simpl; try reflexivity.
  destruct b; simpl; rewrite IH; reflexivity.
Qed.

Lemma masked_select_In {A : Type} (m : list bool) (l : list A) (x : A) :
  In x (masked_select m l) -> In x l.
Proof.
  revert l. induction m as [|b m IH]; intros [|y l]; simpl; try tauto.
  destruct b; simpl; intros H; [destruct H as [H|H]|]; auto.
Qed.

Lemma masked_select_seq_bounds (m : list bool) (k s : nat) :
  s < count_true m ->
  k <= nth s (masked_select m (seq k (length m))) 0 < k + length m.
Proof.
  intros Hs.
  assert (H : In (nth s (masked_select m (seq k (length m))) 0)
                (seq k (length m))).
  { apply masked_select_In with (m := m). apply nth_In.
    rewrite length_masked_select by apply length_seq. exact Hs. }
  apply in_seq in H. exact H.
Qed.

Lemma masked_select_nth_seq {A : Type} (m : list bool) (g : list A)
    (k s : nat) (d : A) :
  length g = length m -> s < count_true m ->
  nth s (masked_select m g) d
  = nth (nth s (masked_select m (seq k (length m))) 0 - k) g d.
Proof.
  revert g k s. induction m as [|b m IH]; intros g k s Hl Hs.
  - unfold count_true in Hs. simpl in Hs. lia.
  - destruct g as [|x g]; [discriminate|]. injection Hl as Hl.
    rewrite count_true_cons in Hs. simpl length. simpl seq.
    destruct b; simpl masked_select.
    + destruct s as [|s].
      * simpl. rewrite Nat.sub_diag. reflexivity.
      * simpl nth at 1. simpl nth at 2.
        pose proof (@masked_select_seq_bounds m (S k) s ltac:(lia)) as Hb.
        rewrite (IH g (S k) s Hl) by lia.
        replace (nth s (masked_select m (seq (S k) (length m))) 0 - k)
          with (S (nth s (masked_select m (seq (S k) (length m))) 0 - S k))
          by lia.
        reflexivity.
    + pose proof (@masked_select_seq_bounds m (S k) s ltac:(lia)) as Hb.
      rewrite (IH g (S k) s Hl) by lia.
      replace (nth s (masked_select m (seq (S k) (length m))) 0 - k)
        with (S (nth s (masked_select m (seq (S k) (length m))) 0 - S k))
        by lia.
      reflexivity.
Qed.

(** The [s]-th entry of [g[mask]] is the entry of [g] at the dense position
    of the compact spin [s]. *)
Lemma masked_select_spin_pos {A : Type} (m : list bool) (g : list A) (s : nat)
    (d : A) :
  length g = length m -> s < count_true m ->
  nth s (masked_select m g) d = nth (spin_pos m s) g d.
Proof.
  intros Hl Hs. unfold spin_pos.
  rewrite (@masked_select_nth_seq A m g 0 s d Hl Hs), Nat.sub_0_r. reflexivity.
Qed.

Lemma spin_pos_bound (m : list bool) (s : nat) :
  s < count_true m -> spin_pos m s < length m.
Proof.
  intros Hs. pose proof (@masked_select_seq_bounds m 0 s Hs) as H.
  unfold spin_pos. lia.
Qed.

(** The dense position of a compact spin is masked-in. *)
Lemma spin_pos_masked (m : list bool) (s : nat) :
  s < count_true m -> nth (spin_pos m s) m false = true.
Proof.
  intros Hs. rewrite <- (@masked_select_spin_pos bool m m s false eq_refl Hs).
  assert (H : forall (l : list bool) x, In x (masked_select l l) -> x = true).
  { clear. induction l as [|b l IH]; simpl; [tauto|].
    destruct b; simpl; intros x H; [destruct H as [H|H]|]; auto. }
  apply (H m). apply nth_In. rewrite length_masked_select by reflexivity.
  exact Hs.
Qed.

Lemma length_crdn (x : nat) : length (crdn x) = x.
Proof. unfold crdn. rewrite length_map, length_seq. reflexivity. Qed.

Lemma map_length_crdn (dims : list nat) :
  map (@length R) (map crdn dims) = dims.
Proof.
  induction dims as [|d dims IH]; simpl; [reflexivity|].
  rewrite length_crdn, IH. reflexivity.
Qed.

Lemma nth_map_seq {A : Type} (f : nat -> A) (a x k : nat) (d : A) :
  k < x -> nth k (map f (seq a x)) d = f (a + k).
Proof.
  intros Hk.
  rewrite (nth_indep (map f (seq a x)) d (f 0))
    by (rewrite length_map, length_seq; exact Hk).
  rewrite (map_nth f (seq a x) 0 k), seq_nth by exact Hk. reflexivity.
Qed.

Lemma nth_crdn (x k : nat) :
  k < x -> nth k (crdn x) 0%R = ((INR k - INR (ctrsub x)) / INR x)%R.
Proof.
  intros Hk. unfold crdn. rewrite nth_map_seq by exact Hk. reflexivity.
Qed.

(** The normalized coordinates lie in [-0.5, 0.5). *)
Lemma crdn_range (x k : nat) :
  k < x ->
  (- (1 / 2) <= (INR k - INR (ctrsub x)) / INR x < 1 / 2)%R.
Proof.
  intros Hk. unfold ctrsub.
  assert (H1 : 2 * (x / 2) <= x) by (apply Nat.Div0.mul_div_le).
  assert (H2 : x < 2 * (x / 2) + 2).
  { pose proof (Nat.div_mod_eq x 2) as E.
    assert (x mod 2 < 2) by (apply Nat.mod_upper_bound; lia). lia. }
  assert (R1 : (2 * INR (x / 2) <= INR x)%R).
  { apply le_INR in H1. rewrite mult_INR in H1.
    change (INR 2) with (1 + 1)%R in H1. lra. }
  assert (R2 : (INR x + 1 <= 2 * INR (x / 2) + 2)%R).
  { assert (H3 : x + 1 <= 2 * (x / 2) + 2) by lia.
    apply le_INR in H3. rewrite !plus_INR, mult_INR in H3.
    change (INR 2) with (1 + 1)%R in H3. change (INR 1) with 1%R in H3.
    lra. }
  assert (R3 : (INR k + 1 <= INR x)%R).
  { assert (H3 : k + 1 <= x) by lia.
    apply le_INR in H3. rewrite plus_INR in H3.
    change (INR 1) with 1%R in H3. lra. }
  assert (R4 : (0 <= INR k)%R) by apply pos_INR.
  assert (Rx : (0 < INR x)%R) by lra.
  split.
  - apply Rmult_le_reg_r with (r := INR x); [exact Rx|].
    unfold Rdiv. rewrite Rmult_assoc, Rinv_l by lra. lra.
  - apply Rmult_lt_reg_r with (r := INR x); [exact Rx|].
    unfold Rdiv at 1. rewrite Rmult_assoc, Rinv_l by lra. lra.
Qed.

Lemma nth_flat_map_blocks {A : Type} (f : nat -> list A) (L N k n s : nat)
    (d : A) :
  (forall j, length (f j) = L) -> n < N -> s < L ->
  nth (n * L + s) (flat_map f (seq k N)) d = nth s (f (k + n)) d.
Proof.
  intros HL. revert k n. induction N as [|N IH]; intros k n Hn Hs; [lia|].
  simpl. destruct n as [|n].
  - simpl. rewrite app_nth1 by (rewrite HL; exact Hs).
    rewrite Nat.add_0_r. reflexivity.
  - rewrite app_nth2 by (rewrite HL; simpl; lia). rewrite HL.
    replace (S n * L + s - L) with (n * L + s) by (simpl; lia).
    rewrite IH by lia. f_equal. f_equal. lia.
Qed.

Lemma length_flat_map_blocks {A : Type} (f : nat -> list A) (L N k : nat) :
  (forall j, length (f j) = L) -> length (flat_map f (seq k N)) = N * L.
Proof.
  intros HL. revert k. induction N as [|N IH]; intros k; simpl;
    [reflexivity|]. rewrite length_app, HL, IH. reflexivity.
Qed.

Lemma nth_map_combine {A B C : Type} (f : A * B -> C) (l : list A)
    (r : list B) (q : nat) (a : A) (b : B) (c : C) :
  q < length l -> q < length r ->
  nth q (map f (combine l r)) c = f (nth q l a, nth q r b).
Proof.
  revert r q. induction l as [|x l IH]; intros [|y r] q Hl Hr; simpl in *;
    try lia.
  destruct q as [|q]; [reflexivity|]. apply IH; lia.
Qed.

Lemma comp_set_comp (i j : nat) (v : vec3) (x : R) :
  i < 3 -> j < 3 ->
  comp i (set_comp j v x) = if i =? j then x else comp i v.
Proof.
  intros Hi Hj.
  destruct i as [|[|[|i]]]; [| | |lia];
    destruct j as [|[|[|j]]]; try lia; reflexivity.
Qed.

Lemma nth_map_lt {A B : Type} (h : A -> B) (l : list A) (s : nat) (a : A)
    (b : B) :
  s < length l -> nth s (map h l) b = h (nth s l a).
Proof.
  revert s. induction l as [|x l IH]; intros s Hs; simpl in *; [lia|].
  destruct s as [|s]; [reflexivity|]. apply IH. lia.
Qed.

(** The value of a grid of [_update_loc_] at a dense position. *)
Lemma grid_value (dims : list nat) (i p : nat) (g : list R) :
  nth_error (meshgrid (map crdn dims)) i = Some g ->
  p < prod dims ->
  nth p g 0%R = grid_coord dims i p /\
  (- (1 / 2) <= grid_coord dims i p < 1 / 2)%R.
Proof.
  intros Hg Hp.
  assert (Hi : i < length dims).
  { assert (H : nth_error (meshgrid (map crdn dims)) i <> None)
      by (rewrite Hg; discriminate).
    apply nth_error_Some in H.
    rewrite length_meshgrid, length_map in H. exact H. }
  destruct (@meshgrid_spec _ _ _ Hg) as [_ Hn].
  rewrite map_length_crdn in Hn. specialize (Hn p Hp).
  pose proof (@unravel_bound dims p i Hp Hi) as Hk.
  change (@nil R) with (crdn 0) in Hn. rewrite map_nth in Hn.
  rewrite nth_crdn in Hn by exact Hk.
  unfold grid_coord. split; [exact Hn|]. apply crdn_range. exact Hk.
Qed.

(** What one turn of the loop of [_update_loc_] leaves. *)
Lemma update_axis_ok (sp : SpinArray) (fv of_ : list vec3)
    (_locn : list (list R)) (l l' : list vec3) (i : nat) :
  length l = batch sp * nM sp ->
  update_axis sp fv of_ _locn l i = Ok l' ->
  exists g,
    nth_error _locn i = Some g /\ length g = length (mask sp) /\
    length l' = length l /\
    forall n s, n < batch sp -> s < nM sp ->
      nth (n * nM sp + s) l' v0
      = set_comp i (nth (n * nM sp + s) l v0)
          (comp i (brow fv n) * nth s (masked_select (mask sp) g) 0
           + comp i (brow of_ n))%R.
Proof.
  intros Hl H. unfold update_axis in H.
  destruct (nth_error _locn i) as [g|]; [|discriminate].
  destruct (length g =? length (mask sp)) eqn:Hg; simpl in H; [|discriminate].
  apply Nat.eqb_eq in Hg.
  destruct (bc_rows (batch sp) fv && bc_rows (batch sp) of_); simpl in H;
    [|discriminate].
  injection H as <-. exists g. split; [reflexivity|]. split; [exact Hg|].
  set (sel := masked_select (mask sp) g).
  assert (Hsel : length sel = nM sp)
    by (apply length_masked_select; exact Hg).
  set (f := fun n => map (fun x => (comp i (brow fv n) * x
                                    + comp i (brow of_ n))%R) sel).
  assert (Hf : forall j, length (f j) = nM sp)
    by (intros j; unfold f; rewrite length_map; exact Hsel).
  assert (Hr : length (flat_map f (seq 0 (batch sp))) = batch sp * nM sp)
    by (apply length_flat_map_blocks; exact Hf).
  split.
  - rewrite length_map, length_combine, Hr, Hl. apply Nat.min_id.
  - intros n s Hn Hs.
    assert (Hq : n * nM sp + s < batch sp * nM sp) by nia.
    rewrite (@nth_map_combine _ _ _ _ l _ _ v0 0%R)
      by (rewrite ?Hr, ?Hl; exact Hq).
    simpl. f_equal.
    rewrite (@nth_flat_map_blocks _ f (nM sp) (batch sp) 0 n s 0%R Hf Hn Hs).
    simpl. unfold f.
    rewrite (@nth_map_lt _ _ _ sel s 0%R) by (rewrite Hsel; exact Hs).
    reflexivity.
Qed.

Lemma comp_after_updates (v : vec3) (x0 x1 x2 : R) (i : nat) :
  i < 3 ->
  comp i (set_comp 2 (set_comp 1 (set_comp 0 v x0) x1) x2)
  = nth i [x0; x1; x2] 0%R.
Proof.
  intros Hi. destruct i as [|[|[|i]]]; [reflexivity..|lia].
Qed.

Lemma update_axes_length (sp : SpinArray) (fv of_ : list vec3)
    (_locn : list (list R)) (axes : list nat) (l : list vec3) :
  length l = batch sp * nM sp ->
  length (fst (update_axes sp fv of_ _locn l axes)) = batch sp * nM sp.
Proof.
  revert l. induction axes as [|i axes IH]; intros l Hl; cbn [update_axes].
  - exact Hl.
  - destruct (update_axis sp fv of_ _locn l i) as [l'|e] eqn:E.
    + apply IH.
      destruct (@update_axis_ok _ _ _ _ _ _ _ Hl E) as (_ & _ & _ & L & _).
      congruence.
    + exact Hl.
Qed.

(** [_update_loc_] touches the locations only, and keeps their number. *)
Lemma _update_loc__frame (c : SpinCube) :
  spinarray (fst (_update_loc_ c)) = spinarray c /\
  fov (fst (_update_loc_ c)) = fov c /\
  ofst (fst (_update_loc_ c)) = ofst c.
Proof.
  unfold _update_loc_. cbn [fst spinarray fov ofst]. auto.
Qed.

Lemma _update_loc__sized (c : SpinCube) :
  cube_sized c -> cube_sized (fst (_update_loc_ c)).
Proof.
  intros [Hm Hl]. unfold cube_sized, _update_loc_.
  cbn [fst spinarray loc_]. split; [exact Hm|].
  apply update_axes_length. exact Hl.
Qed.

(** When [_update_loc_] returns, it leaves the locations that the invariant
    asks for, whatever the buffer held before. *)
Lemma _update_loc__ok (c : SpinCube) :
  cube_sized c -> snd (_update_loc_ c) = Ok tt ->
  loc_invariant (fst (_update_loc_ c)).
Proof.
  intros [Hm Hl] H. unfold _update_loc_ in *. cbn [fst snd] in *.
  set (sp := spinarray c) in *.
  set (_locn := meshgrid (map crdn (Nd sp))) in *.
  cbn [update_axes] in *.
  destruct (update_axis sp (fov c) (ofst c) _locn (loc_ c) 0)
    as [a|e] eqn:E; [|discriminate H].
  destruct (update_axis sp (fov c) (ofst c) _locn a 1)
    as [a0|e] eqn:E0; [|discriminate H].
  destruct (update_axis sp (fov c) (ofst c) _locn a0 2)
    as [a1|e] eqn:E1; [|discriminate H].
  cbn [fst snd] in *.
  destruct (@update_axis_ok _ _ _ _ _ _ _ Hl E) as (g0 & G0 & L0 & La & Ha).
  assert (Hl1 : length a = batch sp * nM sp) by congruence.
  destruct (@update_axis_ok _ _ _ _ _ _ _ Hl1 E0) as (g1 & G1 & L1 & Lb & Hb).
  assert (Hl2 : length a0 = batch sp * nM sp) by congruence.
  destruct (@update_axis_ok _ _ _ _ _ _ _ Hl2 E1) as (g2 & G2 & L2 & Lc & Hc).
  unfold loc_invariant. simpl. fold sp. intros n s i Hn Hs Hi.
  assert (Hp : spin_pos (mask sp) s < prod (Nd sp)).
  { rewrite <- Hm. apply spin_pos_bound. exact Hs. }
  rewrite (Hc n s Hn Hs), (Hb n s Hn Hs), (Ha n s Hn Hs).
  rewrite comp_after_updates by exact Hi.
  rewrite !masked_select_spin_pos by assumption.
  destruct (@grid_value _ _ _ _ G0 Hp) as [V0 R0].
  destruct (@grid_value _ _ _ _ G1 Hp) as [V1 R1].
  destruct (@grid_value _ _ _ _ G2 Hp) as [V2 R2].
  rewrite V0, V1, V2.
  destruct i as [|[|[|i]]]; [| | |lia]; simpl; (split; [reflexivity|]);
    assumption.
Qed.

Lemma SpinArray_new_fits (shp : list nat) (msk : option (list bool))
    (sp : SpinArray) :
  SpinArray_new shp msk = Ok sp -> mask_fits sp.
Proof.
  unfold SpinArray_new. intros H. bind_inv H. injection H as <-.
  apply py_assert_ok in E. apply Nat.eqb_eq in E. exact E.
Qed.

(** C5. The invariant is lost by an assignment that raises.  A cube of
    shape [(1, 2, 1, 1)] with every position masked-in is built with
    [fov = [[3, 3, 3]]] and [ofst = [[0, 0, 0]]]; then a [fov] of two rows
    is assigned.  [__setattr__] stores the new [fov], [_update_loc_] raises
    a RuntimeError on the first axis (two rows cannot be written into a
    batch of one), and the cube is left with the new [fov] and the
    locations of the old one: [loc_[0, 0, x]] is [3 · (-1/2)], not
    [fov[0, x] · g + ofst[0, x] = 4 · (-1/2)]. *)
Theorem SpinCube_set_fov_raise_stale :
  exists c c',
    SpinCube_init [1; 2; 1; 1] [V3 3 3 3] None [V3 0 0 0] [] [] [] [] [3]
    = Ok c /\
    SpinCube_set_fov c [V3 4 4 4; V3 4 4 4] = (c', Raise RuntimeError) /\
    fov c' = [V3 4 4 4; V3 4 4 4] /\ loc_ c' = loc_ c /\
    SpinCube_reachable c' /\ ~ loc_invariant c'.
Proof.
  do 2 eexists. split; [reflexivity|]. split; [reflexivity|].
  split; [reflexivity|]. split; [reflexivity|]. split.
  - match goal with
    | |- SpinCube_reachable ?x =>
        change x with
          (fst (SpinCube_set_fov
                  (mkSpinCube (mkSpinArray [1; 2; 1; 1] [true; true])
                     [V3 3 3 3] [V3 0 0 0] (loc_ x))
                  [V3 4 4 4; V3 4 4 4]))
    end.
    apply cube_set_fov.
    eapply cube_init
      with (shp := [1; 2; 1; 1]) (fv := [V3 3 3 3]) (msk := None)
           (of_ := [V3 0 0 0]) (Δf_ := []) (T1_ := []) (T2_ := [])
           (γ_ := []) (M_ := [3]).
    reflexivity.
  - intros H.
    destruct (H 0 0 0) as [E _]; [cbn; lia..|].
    clear H. cbn in E. unfold grid_coord, ctrsub in E. cbn in E. lra.
Qed.

(** ** Translation of coordinates *)

Lemma mapM_nth {A B : Type} (f : A -> result B) (l : list A) (r : list B) :
  mapM f l = Ok r ->
  length r = length l /\
  forall j a b, j < length l -> f (nth j l a) = Ok (nth j r b).
Proof.
  revert r. induction l as [|x l IH]; intros r H; simpl in H.
  - injection H as <-. split; [reflexivity|]. simpl. intros; lia.
  - bind_inv H. bind_inv H. injection H as <-.
    destruct (IH _ E0) as [Hl Hn]. split; [simpl; congruence|].
    intros [|j] a' b' Hj; simpl in *; [exact E|]. apply Hn. lia.
Qed.

Lemma mapM_impl {A B : Type} (f g : A -> result B) (l : list A) (r : list B) :
  mapM f l = Ok r ->
  (forall x y, In x l -> f x = Ok y -> g x = Ok y) ->
  mapM g l = Ok r.
Proof.
  revert r. induction l as [|x l IH]; intros r H Hfg; simpl in *;
    [exact H|].
  bind_inv H. bind_inv H. injection H as <-.
  rewrite (Hfg x a (or_introl eq_refl) E). simpl.
  rewrite (IH a0 E0) by (intros; apply Hfg; auto). reflexivity.
Qed.

Lemma mapM_map {A B : Type} (g : A -> result B) (h : A -> B) (l : list A) :
  (forall x, In x l -> g x = Ok (h x)) -> mapM g l = Ok (map h l).
Proof.
  induction l as [|x l IH]; intros H; simpl; [reflexivity|].
  rewrite (H x (or_introl eq_refl)). simpl.
  rewrite IH by (intros; apply H; right; assumption). reflexivity.
Qed.

Lemma bc2_ok (a b L : nat) :
  bc2 a b = Ok L <->
  (a = 1 \/ a = L) /\ (b = 1 \/ b = L) /\ (L = a \/ L = b).
Proof.
  unfold bc2.
  destruct (Nat.eqb_spec a b); [|destruct (Nat.eqb_spec a 1);
    [|destruct (Nat.eqb_spec b 1)]];
    (split; [intros H; try discriminate; injection H as H; lia|]);
    intros (H1 & H2 & H3); try (f_equal; lia); exfalso; lia.
Qed.

(** The lengths that broadcast to [L]: each is one or [L], and [L] is one
    or is among them. *)
Lemma bc_len_ok (ls : list nat) (L : nat) :
  bc_len ls = Ok L <->
  Forall (fun x => x = 1 \/ x = L) ls /\ (L = 1 \/ In L ls).
Proof.
  revert L. induction ls as [|x ls IH]; intros L; simpl.
  - split.
    + intros H. injection H as <-. auto.
    + intros [_ [H|H]]; [subst; reflexivity | destruct H].
  - split.
    + intros H. bind_inv H. apply bc2_ok in H.
      destruct H as (H1 & H2 & H3). apply IH in E. destruct E as [F I].
      split.
      * constructor; [exact H1|]. destruct H2 as [-> | ->]; [|exact F].
        eapply Forall_impl; [|exact F]. simpl.
        intros y [-> | ->]; auto.
      * destruct H3 as [-> | ->]; [auto|]. destruct I as [I|I]; auto.
    + intros [F I]. inversion F as [|? ? Hx F']; subst.
      destruct (Nat.eq_dec L 1) as [->|HL].
      * assert (E : bc_len ls = Ok 1) by (apply IH; auto).
        rewrite E. simpl. apply bc2_ok. lia.
      * destruct (in_dec Nat.eq_dec L ls) as [HI|HI].
        -- assert (E : bc_len ls = Ok L) by (apply IH; auto).
           rewrite E. simpl. apply bc2_ok. lia.
        -- assert (E : bc_len ls = Ok 1).
           { apply IH. split; [|auto].
             rewrite Forall_forall in *. intros y Hy.
             destruct (F' y Hy) as [-> | ->]; [auto | contradiction]. }
           rewrite E. simpl. apply bc2_ok.
           destruct I as [I|[I|I]]; [lia | lia | contradiction].
Qed.

Lemma norm_index_bound (n : nat) (i : Z) (k : nat) :
  norm_index n i = Ok k -> k < n.
Proof.
  unfold norm_index.
  destruct ((0 <=? i)%Z && (i <? Z.of_nat n)%Z) eqn:E1.
  - intros H. injection H as <-. lia.
  - destruct ((- Z.of_nat n <=? i)%Z && (i <? 0)%Z) eqn:E2;
      [|discriminate].
    intros H. injection H as <-. lia.
Qed.

Lemma norm_index_of_nat (n k : nat) :
  k < n -> norm_index n (Z.of_nat k) = Ok k.
Proof.
  intros H. unfold norm_index.
  replace ((0 <=? Z.of_nat k)%Z && (Z.of_nat k <? Z.of_nat n)%Z) with true
    by (symmetry; apply andb_true_iff; split; lia).
  rewrite Nat2Z.id. reflexivity.
Qed.

Lemma ravel_bound (dims : list nat) (idx : list Z) (p : nat) :
  ravel dims idx = Ok p -> p < prod dims.
Proof.
  revert idx p. induction dims as [|d dims IH]; intros [|i idx] p H;
    simpl in H; try discriminate.
  - injection H as <-. simpl. lia.
  - bind_inv H. bind_inv H. injection H as <-.
    apply norm_index_bound in E. apply IH in E0. simpl. nia.
Qed.

Lemma rank_lt (m : list bool) (q : nat) :
  nth q m false = true -> rank m q < count_true m.
Proof.
  unfold rank. revert q. induction m as [|b m IH]; intros q H.
  - destruct q; discriminate.
  - rewrite count_true_cons. destruct q as [|q]; simpl in H.
    + subst b. simpl. unfold count_true. simpl. lia.
    + rewrite firstn_cons, count_true_cons. specialize (IH q H). lia.
Qed.

Lemma nth_error_nth_true (m : list bool) (q : nat) :
  nth_error m q = Some true -> nth q m false = true /\ q < length m.
Proof.
  intros H. split.
  - apply nth_error_nth. exact H.
  - apply nth_error_Some. rewrite H. discriminate.
Qed.

Lemma nth_error_map_seq {T : Type} (f : nat -> T) (n k : nat) :
  k < n -> nth_error (map f (seq 0 n)) k = Some (f k).
Proof.
  intros H. rewrite nth_error_map, nth_error_seq.
  apply Nat.ltb_lt in H. rewrite H. reflexivity.
Qed.

(** The table of compact indices holds the rank at a masked-in position. *)
Lemma compact_table_true (m : list bool) (q : nat) :
  nth_error m q = Some true ->
  nth_error (compact_table m) q = Some (Z.of_nat (rank m q)).
Proof.
  intros H. apply nth_error_nth_true in H. destruct H as [Hq Hl].
  unfold compact_table. rewrite masked_assign_true.
  - apply (@nth_error_map_seq _ Z.of_nat). apply rank_lt. exact Hq.
  - apply repeat_length.
  - rewrite length_map, length_seq. reflexivity.
  - exact Hq.
Qed.

Lemma rank_table_nth (m : list bool) (q : nat) :
  q < length m -> nth_error (rank_table m) q = Some (Z.of_nat (rank m q)).
Proof.
  intros H. unfold rank_table.
  apply (@nth_error_map_seq _ (fun q => Z.of_nat (rank m q)) (length m) q H).
Qed.

Lemma filter_not_minus_one (l : list Z) :
  Forall (fun z => (0 <= z)%Z) l ->
  filter (fun i => negb (i =? -1)%Z) l = l.
Proof.
  induction 1 as [|z l Hz _ IH]; simpl; [reflexivity|].
  replace (z =? -1)%Z with false by (symmetry; apply Z.eqb_neq; lia).
  simpl. rewrite IH. reflexivity.
Qed.

Lemma point_app (l1 l2 : list (list Z)) (j : nat) :
  point (l1 ++ l2) j = point l1 j ++ point l2 j.
Proof. unfold point. apply map_app. Qed.

Lemma length_point (l : list (list Z)) (j : nat) :
  length (point l j) = length l.
Proof. unfold point. apply length_map. Qed.

Lemma firstn_exact_app {T : Type} (l1 l2 : list T) (n : nat) :
  length l1 = n -> firstn n (l1 ++ l2) = l1.
Proof.
  intros <-. rewrite firstn_app, Nat.sub_diag, firstn_all. simpl.
  apply app_nil_r.
Qed.

Lemma skipn_exact_app {T : Type} (l1 l2 : list T) (n : nat) :
  length l1 = n -> skipn n (l1 ++ l2) = l2.
Proof.
  intros <-. rewrite skipn_app, Nat.sub_diag, skipn_all. reflexivity.
Qed.

Section Translate.
Context {A B : Type}.
Variable sub : list Z -> A -> result B.
Variable nan : A.
Variables (N : nat) (Nd : list nat) (m : list bool).
Hypothesis Hm : length m = prod Nd.
Variables (c0 : list Z) (spatial trail : list (list Z)).
Hypothesis Hsp : length spatial = length Nd.

(** Indexing a table of the shape of the mask by [[0]] and the spatial
    entries. *)
Lemma index_at_table {T : Type} (t : list T) (j : nat) :
  index_at sub_none (1 :: Nd) t ([0%Z] :: spatial) j
  = (q <- ravel Nd (point spatial j) ;;
     match nth_error t q with
     | Some a => Ok a
     | None => Raise IndexError
     end).
Proof.
  unfold index_at.
  change (point ([0%Z] :: spatial) j) with (0%Z :: point spatial j).
  change (length (1 :: Nd)) with (S (length Nd)).
  rewrite firstn_cons, skipn_cons.
  rewrite firstn_all2 by (rewrite length_point; lia).
  rewrite skipn_all2 by (rewrite length_point; lia).
  change (ravel (1 :: Nd) (0%Z :: point spatial j))
    with (r <- ravel Nd (point spatial j) ;; Ok (0 * prod Nd + r)).
  destruct (ravel Nd (point spatial j)) as [q|e]; simpl; [|reflexivity].
  destruct (nth_error t q); reflexivity.
Qed.

Variables (Ls : nat) (bs : list bool).
Hypothesis HLs : bc_len (1 :: map (@length Z) spatial) = Ok Ls.
Hypothesis Hbs :
  mapM (index_at sub_none (1 :: Nd) m ([0%Z] :: spatial)) (seq 0 Ls) = Ok bs.
Hypothesis Htrue : Forall (fun b => b = true) bs.

Lemma masked_at (j : nat) :
  j < Ls ->
  ravel Nd (point spatial j) = Ok (qd Nd spatial j) /\
  nth_error m (qd Nd spatial j) = Some true.
Proof.
  intros Hj. destruct (mapM_nth _ _ Hbs) as [Hl Hn].
  rewrite length_seq in Hl, Hn.
  specialize (Hn j 0 false Hj). rewrite seq_nth in Hn by exact Hj.
  simpl in Hn. rewrite index_at_table in Hn.
  assert (Ht : nth j bs false = true).
  { rewrite Forall_forall in Htrue. apply Htrue. apply nth_In. lia. }
  rewrite Ht in Hn. unfold qd.
  destruct (ravel Nd (point spatial j)) as [q|e]; simpl in Hn;
    [|discriminate].
  split; [reflexivity|].
  destruct (nth_error m q) as [b|]; [|discriminate].
  injection Hn as ->. reflexivity.
Qed.

Lemma sel_from_table (t : list Z) :
  (forall q, nth_error m q = Some true ->
             nth_error t q = Some (Z.of_nat (rank m q))) ->
  adv_index sub_none (1 :: Nd) t ([0%Z] :: spatial) = Ok (sel m Nd spatial Ls).
Proof.
  intros Ht. unfold adv_index.
  change (map (@length Z) ([0%Z] :: spatial))
    with (1 :: map (@length Z) spatial).
  rewrite HLs. simpl bind. apply mapM_map. intros j Hj.
  apply in_seq in Hj. destruct (@masked_at j ltac:(lia)) as [Hq Hmq].
  rewrite index_at_table, Hq. simpl. rewrite (Ht _ Hmq). reflexivity.
Qed.

Lemma filter_sel : filter (fun i => negb (i =? -1)%Z) (sel m Nd spatial Ls)
  = sel m Nd spatial Ls.
Proof.
  apply filter_not_minus_one. unfold sel. apply Forall_forall.
  intros z Hz. apply in_map_iff in Hz. destruct Hz as (j & <- & _). lia.
Qed.

Lemma length_sel : length (sel m Nd spatial Ls) = Ls.
Proof. unfold sel. rewrite length_map, length_seq. reflexivity. Qed.

Variable L : nat.
Hypothesis HL :
  bc_len (length c0 :: map (@length Z) (spatial ++ trail)) = Ok L.

(** The entries of the translated expression broadcast to the length that
    the dense entries broadcast to. *)
Lemma bc_len_translated :
  bc_len (length c0 :: Ls :: map (@length Z) trail) = Ok L.
Proof.
  pose proof HL as HL'. apply bc_len_ok in HL'. destruct HL' as [FL IL].
  pose proof HLs as HLs'. apply bc_len_ok in HLs'.
  destruct HLs' as [FLs ILs].
  rewrite map_app in FL, IL. rewrite Forall_forall in FL, FLs.
  assert (K : Ls = 1 \/ Ls = L).
  { destruct ILs as [->|[E|I]]; [auto | auto |].
    apply FL. right. apply in_app_iff. auto. }
  apply bc_len_ok. split.
  - apply Forall_forall. intros x [<-|[<-|Hx]].
    + apply FL. left. reflexivity.
    + exact K.
    + apply FL. right. apply in_app_iff. auto.
  - destruct IL as [->|[E|I]]; [auto | right; left; exact E |].
    apply in_app_iff in I. destruct I as [I|I].
    + destruct (FLs L (or_intror I)) as [->|E]; [auto|].
      right. right. left. symmetry. exact E.
    + right. right. right. exact I.
Qed.

Lemma bc_get_sel (j : nat) :
  j < L ->
  exists j', j' < Ls /\
    bc_get (sel m Nd spatial Ls) j = Z.of_nat (rank m (qd Nd spatial j')) /\
    point spatial j = point spatial j'.
Proof.
  intros Hj. unfold bc_get at 1. rewrite length_sel.
  pose proof HL as HL'. apply bc_len_ok in HL'. destruct HL' as [FL IL].
  pose proof HLs as HLs'. apply bc_len_ok in HLs'.
  destruct HLs' as [FLs ILs].
  rewrite map_app in FL. rewrite Forall_forall in FL, FLs.
  destruct (Nat.eqb_spec Ls 1) as [E1|E1].
  - exists 0. split; [lia|]. split.
    + unfold sel. rewrite E1. reflexivity.
    + unfold point. apply map_ext_in. intros l Hl.
      assert (H1 : length l = 1).
      { destruct (FLs (length l)) as [H|H]; [|exact H|lia].
        right. apply in_map. exact Hl. }
      unfold bc_get. rewrite H1. reflexivity.
  - exists j.
    assert (E : Ls = L).
    { destruct ILs as [H|[H|H]]; [lia | lia |].
      destruct (FL Ls) as [H'|H']; [|lia|exact H'].
      right. apply in_app_iff. auto. }
    split; [lia|]. split; [|reflexivity].
    unfold sel.
    apply (@nth_map_seq _ (fun j => Z.of_nat (rank m (qd Nd spatial j)))
             0 Ls j 0%Z).
    lia.
Qed.

Variable v_ : list A.
Hypothesis Hv_ : length v_ = N * count_true m.

(** The compact entry behind a masked-in entry of the dense view. *)
Lemma embedded_entry (b q : nat) :
  b < N -> nth_error m q = Some true ->
  nth_error
    (masked_assign (expand_mask N m) (repeat nan (N * length m)) v_)
    (b * prod Nd + q)
  = nth_error v_ (b * count_true m + rank m q).
Proof.
  intros Hb Hq. apply nth_error_nth_true in Hq. destruct Hq as [Hq Hl].
  rewrite <- Hm. rewrite masked_assign_true.
  - rewrite count_true_firstn_expand by lia. reflexivity.
  - rewrite repeat_length, length_expand_mask. reflexivity.
  - rewrite count_true_expand_mask. exact Hv_.
  - rewrite nth_expand_mask by assumption. exact Hq.
Qed.

(** Entry by entry, the translated expression reads in the compact array
    what the dense expression reads in the dense view. *)
Lemma index_at_translated (j : nat) (y : B) :
  j < L ->
  index_at sub (N :: Nd)
    (masked_assign (expand_mask N m) (repeat nan (N * length m)) v_)
    (c0 :: spatial ++ trail) j = Ok y ->
  index_at sub [N; count_true m] v_ (c0 :: sel m Nd spatial Ls :: trail) j
  = Ok y.
Proof.
  intros Hj H.
  destruct (bc_get_sel Hj) as (j' & Hj' & Hsel & Hpt).
  destruct (masked_at Hj') as [Hq Hmq]. rewrite <- Hpt in Hq.
  unfold index_at in *.
  change (point (c0 :: spatial ++ trail) j)
    with (bc_get c0 j :: point (spatial ++ trail) j) in H.
  change (length (N :: Nd)) with (S (length Nd)) in H.
  rewrite firstn_cons, skipn_cons, point_app in H.
  rewrite firstn_exact_app in H by (rewrite length_point; exact Hsp).
  rewrite skipn_exact_app in H by (rewrite length_point; exact Hsp).
  change (ravel (N :: Nd) (bc_get c0 j :: point spatial j))
    with (i' <- norm_index N (bc_get c0 j) ;;
          r <- ravel Nd (point spatial j) ;;
          Ok (i' * prod Nd + r)) in H.
  bind_inv H. bind_inv E. rewrite Hq in E. simpl in E. injection E as <-.
  change (point (c0 :: sel m Nd spatial Ls :: trail) j)
    with (bc_get c0 j :: bc_get (sel m Nd spatial Ls) j :: point trail j).
  rewrite Hsel.
  change (firstn (length [N; count_true m])
            (bc_get c0 j :: Z.of_nat (rank m (qd Nd spatial j'))
             :: point trail j))
    with [bc_get c0 j; Z.of_nat (rank m (qd Nd spatial j'))].
  change (skipn (length [N; count_true m])
            (bc_get c0 j :: Z.of_nat (rank m (qd Nd spatial j'))
             :: point trail j))
    with (point trail j).
  change (ravel [N; count_true m]
            [bc_get c0 j; Z.of_nat (rank m (qd Nd spatial j'))])
    with (i' <- norm_index N (bc_get c0 j) ;;
          r <- (i'' <- norm_index (count_true m)
                         (Z.of_nat (rank m (qd Nd spatial j'))) ;;
                r' <- Ok 0 ;; Ok (i'' * 1 + r')) ;;
          Ok (i' * (count_true m * 1) + r)).
  rewrite E0. simpl bind.
  pose proof (nth_error_nth_true _ _ Hmq) as [Hqt _].
  rewrite norm_index_of_nat by (apply rank_lt; exact Hqt). simpl bind.
  apply norm_index_bound in E0.
  rewrite (@embedded_entry _ _ E0 Hmq) in H.
  replace (a0 * (count_true m * 1) + (rank m (qd Nd spatial j') * 1 + 0))
    with (a0 * count_true m + rank m (qd Nd spatial j')) by lia.
  exact H.
Qed.

Lemma mapM_translated (r : list B) :
  mapM (index_at sub (N :: Nd)
          (masked_assign (expand_mask N m) (repeat nan (N * length m)) v_)
          (c0 :: spatial ++ trail)) (seq 0 L) = Ok r ->
  adv_index sub [N; count_true m] v_ (c0 :: sel m Nd spatial Ls :: trail)
  = Ok r.
Proof.
  intros H. unfold adv_index.
  change (map (@length Z) (c0 :: sel m Nd spatial Ls :: trail))
    with (length c0 :: length (sel m Nd spatial Ls) :: map (@length Z) trail).
  rewrite length_sel, bc_len_translated. simpl bind.
  apply (@mapM_impl _ _ _ _ _ _ H). intros j y Hj Hy. apply in_seq in Hj.
  apply index_at_translated; [lia | exact Hy].
Qed.
End Translate.

Section CrdsTranslation.
Context {A B : Type}.
Variable sub : list Z -> A -> result B.
Variable nan : A.

(** X26. For a spin array and an indexing expression [crds] made of
    one-dimensional integer index arrays, with at least [ndim] entries,
    valid on the dense view [v] of a compact array [v_] of [N * nM] blocks
    and whose spatial entries select masked-in positions only, [crds_]
    returns [crds[0]], then the compact indices of the selected positions,
    then [crds[ndim:]], and [v_[crds_] == v[crds]]. *)
Theorem crds__translates (sp : SpinArray) (v_ v : list A)
    (crds : list (list Z)) (r : list B) :
  mask_fits sp ->
  shape sp <> [] ->
  ndim sp <= length crds ->
  length v_ = batch sp * nM sp ->
  embed nan sp v_ = Ok v ->
  adv_index sub (shape sp) v crds = Ok r ->
  selects_masked sp crds ->
  exists inds_,
    crds_ sp crds = Ok (hd [] crds :: inds_ :: skipn (ndim sp) crds) /\
    adv_index sub_none (1 :: Nd sp) (rank_table (mask sp))
      ([0%Z] :: spatial_of sp crds) = Ok inds_ /\
    adv_index sub [batch sp; nM sp] v_
      (hd [] crds :: inds_ :: skipn (ndim sp) crds) = Ok r.
Proof.
  destruct sp as [shp m].
  unfold mask_fits, selects_masked, spatial_of, crds_.
  intros Hm Hshp Hlen Hv_ Hv Hr (bs & Hbs & Htrue).
  rewrite embed_ok in Hv by exact Hv_.
  destruct shp as [|N dims]; [contradiction|]. clear Hshp.
  unfold ndim, Nd, batch, nM, numel in *.
  destruct crds as [|c0 rest]; [simpl in Hlen; lia|].
  cbn [shape mask hd tl length skipn Nat.sub] in *.
  rewrite Nat.sub_0_r in *.
  set (spatial := firstn (length dims) rest) in *.
  set (trail := skipn (length dims) rest).
  assert (Hrest : rest = spatial ++ trail)
    by (symmetry; apply firstn_skipn).
  assert (Hsp : length spatial = length dims)
    by (apply firstn_length_le; lia).
  (* the dense view *)
  injection Hv as <-.
  (* the mask at the selected positions *)
  unfold adv_index in Hbs. bind_inv Hbs.
  change (map (@length Z) ([0%Z] :: spatial))
    with (1 :: map (@length Z) spatial) in E.
  rename a into Ls.
  (* the dense indexing *)
  unfold adv_index in Hr. bind_inv Hr. rename a into L.
  rewrite Hrest in E0, Hr.
  change (map (@length Z) (c0 :: spatial ++ trail))
    with (length c0 :: map (@length Z) (spatial ++ trail)) in E0.
  exists (sel m dims spatial Ls).
  assert (Hle : (S (length dims) <=? S (length rest)) = true)
    by (apply Nat.leb_le; lia).
  split; [|split].
  - rewrite Hle. simpl bind.
    rewrite (@sel_from_table dims m Hm spatial Hsp Ls bs E Hbs Htrue
               (compact_table m) (@compact_table_true m)).
    simpl bind. rewrite (@filter_sel dims m Hm spatial Hsp Ls). reflexivity.
  - apply (@sel_from_table dims m Hm spatial Hsp Ls bs E Hbs Htrue).
    intros q Hq. apply rank_table_nth.
    apply nth_error_nth_true in Hq. tauto.
  - apply (@mapM_translated A B sub nan N dims m Hm c0 spatial trail Hsp
             Ls bs E Hbs Htrue L E0 v_ Hv_ r Hr).
Qed.
End CrdsTranslation.

Lemma crds__translates_witness :
  let sp := mkSpinArray [2; 2; 2] [true; false; false; true] in
  let crds := [[0; 1; 1]; [0; 1; -1]; [0; 1; -1]]%Z in
  let v_ := [10; 13; 20; 23] in
  length v_ = batch sp * nM sp /\
  embed 0 sp v_ = Ok [10; 0; 0; 13; 20; 0; 0; 23] /\
  adv_index sub_none (shape sp) [10; 0; 0; 13; 20; 0; 0; 23] crds
  = Ok [10; 23; 23] /\
  exists inds_,
    crds_ sp crds = Ok (hd [] crds :: inds_ :: skipn (ndim sp) crds) /\
    adv_index sub_none (1 :: Nd sp) (rank_table (mask sp))
      ([0%Z] :: spatial_of sp crds) = Ok inds_ /\
    adv_index sub_none [batch sp; nM sp] v_
      (hd [] crds :: inds_ :: skipn (ndim sp) crds) = Ok [10; 23; 23].
Proof.
  intros sp crds v_. split; [reflexivity|]. split; [reflexivity|].
  split; [reflexivity|].
  apply (@crds__translates nat nat sub_none 0 sp v_
           [10; 0; 0; 13; 20; 0; 0; 23] crds [10; 23; 23]).
  - reflexivity.
  - discriminate.
  - apply Nat.leb_le. reflexivity.
  - reflexivity.
  - reflexivity.
  - reflexivity.
  - exists [true; true; true]. split; [reflexivity|]. repeat constructor.
Defined.

(** * Further properties *)

(** ** Compact and dense, the other way round *)

Lemma masked_select_assign {A : Type} (m : list bool) (out src : list A) :
  length out = length m -> length src = count_true m ->
  masked_select m (masked_assign m out src) = src.
Proof.
  revert out src. induction m as [|b m IH]; intros out src Ho Hs.
  - unfold count_true in Hs. simpl in Hs.
    destruct src; [|discriminate]. destruct out; reflexivity.
  - destruct out as [|o out]; [discriminate|]. injection Ho as Ho.
    rewrite count_true_cons in Hs. destruct b; simpl in *.
    + destruct src as [|s src]; [discriminate|]. simpl.
      rewrite IH by (auto; lia). reflexivity.
    + apply IH; assumption.
Qed.

Lemma count_true_full (m : list bool) :
  count_true m = length m -> m = repeat true (length m).
Proof.
  induction m as [|b m IH]; intros H; [reflexivity|].
  rewrite count_true_cons in H. simpl in H.
  assert (Hc : count_true m <= length m).
  { unfold count_true. apply filter_length_le. }
  destruct b; simpl in H; [|lia].
  simpl. f_equal. apply IH. lia.
Qed.

Lemma expand_mask_full (n k : nat) :
  expand_mask n (repeat true k) = repeat true (n * k).
Proof.
  unfold expand_mask. induction n as [|n IH]; simpl; [reflexivity|].
  rewrite IH, repeat_app. reflexivity.
Qed.

Lemma masked_assign_full {A : Type} (n : nat) (out src : list A) :
  length out = n -> length src = n ->
  masked_assign (repeat true n) out src = src.
Proof.
  revert out src. induction n as [|n IH]; intros [|o out] [|s src] Ho Hs;
    simpl in *; try reflexivity; try discriminate.
  rewrite IH by lia. reflexivity.
Qed.

Lemma masked_select_full {A : Type} (n : nat) (v : list A) :
  length v = n -> masked_select (repeat true n) v = v.
Proof.
  revert v. induction n as [|n IH]; intros [|x v] H; simpl in *;
    try reflexivity; try discriminate.
  rewrite IH by lia. reflexivity.
Qed.

Section CompactDense.
Context {A : Type}.
Variable nan : A.

(** X1. A compact array of [N * nM] blocks comes back from
    [extract(embed(v_))] as it was. *)
Theorem extract_embed_roundtrip (sp : SpinArray) (v_ : list A) :
  length v_ = batch sp * nM sp ->
  (v <- embed nan sp v_ ;; extract sp v) = Ok v_.
Proof.
  intros Hv. rewrite embed_ok by exact Hv. simpl bind.
  rewrite extract_ok
    by (rewrite length_masked_assign, repeat_length; reflexivity).
  f_equal. apply masked_select_assign.
  - rewrite repeat_length, length_expand_mask. reflexivity.
  - rewrite count_true_expand_mask. exact Hv.
Qed.

(** X3. When every position is masked-in, the dense and the compact
    layout coincide: [embed] and [extract] both return an array of
    [N * nM] blocks as it is. *)
Theorem all_true_mask_identity (sp : SpinArray) (v_ : list A) :
  mask_fits sp -> nM sp = prod (Nd sp) -> length v_ = batch sp * nM sp ->
  embed nan sp v_ = Ok v_ /\ extract sp v_ = Ok v_.
Proof.
  intros Hm Hn Hv. unfold mask_fits in Hm.
  assert (Hc : count_true (mask sp) = length (mask sp))
    by (unfold nM in Hn; congruence).
  pose proof (count_true_full _ Hc) as Hmask.
  split.
  - rewrite embed_ok by exact Hv. f_equal.
    rewrite Hmask, expand_mask_full.
    apply masked_assign_full.
    + rewrite repeat_length. reflexivity.
    + rewrite Hv. unfold nM. rewrite Hc. reflexivity.
  - rewrite extract_ok by (unfold numel; rewrite Hv, <- Hc; reflexivity).
    f_equal. rewrite Hmask, expand_mask_full.
    apply masked_select_full. rewrite Hv. unfold nM. rewrite Hc.
    reflexivity.
Qed.
End CompactDense.

Lemma extract_embed_roundtrip_witness :
  let sp := mkSpinArray [2; 2; 2] [true; false; false; true] in
  let v_ := [10; 13; 20; 23] in
  length v_ = batch sp * nM sp /\
  (v <- embed 0 sp v_ ;; extract sp v) = Ok v_.
Proof.
  intros sp v_. split; [reflexivity|].
  apply (@extract_embed_roundtrip nat 0 sp v_). reflexivity.
Defined.

Lemma all_true_mask_identity_witness :
  let sp := mkSpinArray [2; 2; 1] [true; true] in
  let v_ := [10; 13; 20; 23] in
  mask_fits sp /\ nM sp = prod (Nd sp) /\ length v_ = batch sp * nM sp /\
  embed 0 sp v_ = Ok v_ /\ extract sp v_ = Ok v_.
Proof.
  intros sp v_.
  split; [reflexivity|]. split; [reflexivity|]. split; [reflexivity|].
  apply (@all_true_mask_identity nat 0 sp v_); reflexivity.
Defined.

(** ** The compact indices that [crds_] returns *)

Lemma masked_assign_In {A : Type} (m : list bool) (out src : list A) (x : A) :
  In x (masked_assign m out src) -> In x out \/ In x src.
Proof.
  revert out src. induction m as [|b m IH]; intros out src H.
  - destruct out; simpl in H; auto.
  - destruct out as [|o out]; [simpl in H; auto|].
    destruct b; simpl in H.
    + destruct src as [|s src]; simpl in H.
      * destruct H as [H|H]; [left; left; exact H|].
        apply IH in H. destruct H as [H|H]; [left; right; exact H|].
        destruct H.
      * destruct H as [H|H]; [right; left; exact H|].
        apply IH in H. destruct H as [H|H]; [left|right]; right; exact H.
    + destruct H as [H|H]; [left; left; exact H|].
      apply IH in H. destruct H as [H|H]; [left; right; exact H|].
      right. exact H.
Qed.

(** An entry of the table of compact indices is [-1] or a compact index. *)
Lemma compact_table_entries (m : list bool) (z : Z) :
  In z (compact_table m) ->
  z = (-1)%Z \/ (0 <= z < Z.of_nat (count_true m))%Z.
Proof.
  intros H. unfold compact_table in H. apply masked_assign_In in H.
  destruct H as [H|H].
  - left. apply repeat_spec in H. exact H.
  - right. apply in_map_iff in H. destruct H as (k & <- & Hk).
    apply in_seq in Hk. lia.
Qed.

Lemma mapM_Forall {A B : Type} (f : A -> result B) (P : B -> Prop)
    (l : list A) (r : list B) :
  (forall x y, f x = Ok y -> P y) -> mapM f l = Ok r -> Forall P r.
Proof.
  intros Hf. revert r. induction l as [|x l IH]; intros r H; simpl in H.
  - injection H as <-. constructor.
  - bind_inv H. bind_inv H. injection H as <-.
    constructor; [eapply Hf; eassumption | apply IH; assumption].
Qed.

(** What plain indexing of a table returns is an entry of the table. *)
Lemma adv_index_entries {T : Type} (dims : list nat) (t : list T)
    (idx : list (list Z)) (r : list T) :
  adv_index sub_none dims t idx = Ok r -> Forall (fun a => In a t) r.
Proof.
  unfold adv_index. intros H. bind_inv H.
  apply (@mapM_Forall _ _ (index_at sub_none dims t idx)
           (fun a => In a t) _ _) in H; [exact H|].
  intros j y Hy. unfold index_at in Hy. bind_inv Hy.
  destruct (nth_error t a0) as [b|] eqn:Hn; [|discriminate].
  unfold sub_none in Hy.
  destruct (skipn (length dims) (point idx j)); [|discriminate].
  injection Hy as <-. eapply nth_error_In. exact Hn.
Qed.

(** X4. For [crds] made of one-dimensional integer index arrays: whenever
    [crds_] returns, the entry it puts in second place holds compact
    indices only: each lies in [0, nM), none is the [-1] of a masked-out
    position. *)
Theorem crds__indices_in_range (sp : SpinArray) (crds c_ : list (list Z)) :
  crds_ sp crds = Ok c_ ->
  exists inds_,
    nth_error c_ 1 = Some inds_ /\
    Forall (fun i => (0 <= i < Z.of_nat (nM sp))%Z) inds_.
Proof.
  unfold crds_. intros H. bind_inv H.
  destruct crds as [|c0 rest]; [discriminate|].
  bind_inv H. injection H as <-. eexists. split; [reflexivity|].
  apply adv_index_entries in E0. rewrite Forall_forall in *.
  intros z Hz. apply filter_In in Hz. destruct Hz as [Hz Hne].
  apply E0, compact_table_entries in Hz.
  destruct Hz as [-> | Hz]; [discriminate Hne | exact Hz].
Qed.

Lemma crds__indices_in_range_witness :
  let sp := mkSpinArray [2; 2; 2] [true; false; false; true] in
  let crds := [[0; 1; 1]; [0; 1; 1]; [0; 0; 1]]%Z in
  crds_ sp crds = Ok [[0; 1; 1]; [0; 1]]%Z /\
  exists inds_,
    nth_error [[0; 1; 1]; [0; 1]]%Z 1 = Some inds_ /\
    Forall (fun i => (0 <= i < Z.of_nat (nM sp))%Z) inds_.
Proof.
  intros sp crds.
  assert (H : crds_ sp crds = Ok [[0; 1; 1]; [0; 1]]%Z) by reflexivity.
  split; [exact H|]. exact (@crds__indices_in_range sp crds _ H).
Defined.

(** ** Assignments and moves of a spin array *)

Lemma append_underscore_inj (s1 s2 : string) :
  (s1 ++ "_")%string = (s2 ++ "_")%string -> s1 = s2.
Proof.
  revert s2. induction s1 as [|c s1 IH]; intros [|d s2] H; simpl in H.
  - reflexivity.
  - injection H as _ H. destruct s2; discriminate.
  - injection H as _ H. destruct s1; discriminate.
  - injection H as -> H. f_equal. apply IH. exact H.
Qed.

Lemma SpinArray_setattr_target (o o' : SpinArrayObj) (k_ : string)
    (v_ : tshape) :
  SpinArray_setattr o k_ v_ = Ok o' ->
  exists k v,
    o' = set_slot k v o /\ mem k _compact = true /\
    (k = k_ \/ k = (k_ ++ "_")%string).
Proof.
  unfold SpinArray_setattr. intros H.
  bind_inv H. bind_inv H. destruct a0 as [k v].
  cbn [fst snd] in H. bind_inv H.
  assert (Hk : mem k __slots__ = true /\ o' = set_slot k a0 o).
  { unfold object_setattr in H. destruct (mem k __slots__);
      [injection H as H; auto | discriminate]. }
  destruct Hk as [Hk ->]. clear H. apply py_assert_ok in E.
  exists k, a0. split; [reflexivity|].
  destruct (mem (k_ ++ "_") _compact) eqn:Hm.
  - bind_inv E0. bind_inv E0. bind_inv E0. injection E0 as <- <-. auto.
  - injection E0 as <- <-. split; [|auto].
    unfold __slots__, mem in Hk.
    rewrite existsb_app in Hk. apply orb_true_iff in Hk.
    destruct Hk as [Hk|Hk]; [|exact Hk].
    unfold mem in E. rewrite Hk in E. discriminate.
Qed.

(** X5. An assignment to a spin array returns only for the names [T1],
    [T2], [γ], [M] and [T1_], [T2_], [γ_], [M_]; it leaves the shape and the
    mask as they were, and every slot but the one of that name. *)
Theorem SpinArray_setattr_frame (o o' : SpinArrayObj) (k_ : string)
    (v_ : tshape) :
  SpinArray_setattr o k_ v_ = Ok o' ->
  base o' = base o /\
  In k_ ["T1"; "T2"; "γ"; "M"; "T1_"; "T2_"; "γ_"; "M_"]%string /\
  forall k', k' <> k_ -> k' <> (k_ ++ "_")%string ->
             slots o' k' = slots o k'.
Proof.
  intros H. apply SpinArray_setattr_target in H.
  destruct H as (k & v & -> & Hc & Hk). split; [reflexivity|]. split.
  - apply mem_compact in Hc. simpl.
    destruct Hk as [<- | ->];
      [destruct Hc as [-> | [-> | [-> | ->]]]; auto 10|].
    destruct Hc as [Hc|[Hc|[Hc|Hc]]].
    + apply (append_underscore_inj k_ "T1") in Hc. auto.
    + apply (append_underscore_inj k_ "T2") in Hc. auto.
    + apply (append_underscore_inj k_ "γ") in Hc. auto 10.
    + apply (append_underscore_inj k_ "M") in Hc. auto 10.
  - intros k' H1 H2. apply set_slot_other.
    destruct Hk as [-> | ->]; assumption.
Qed.

Lemma SpinArray_setattr_frame_witness :
  let o := mkObj (mkSpinArray [2; 2] [true; false]) (fun _ => None) in
  exists o',
    SpinArray_setattr o "T1" [2; 2] = Ok o' /\
    base o' = base o /\
    In "T1"%string ["T1"; "T2"; "γ"; "M"; "T1_"; "T2_"; "γ_"; "M_"]%string /\
    forall k', k' <> "T1"%string -> k' <> ("T1" ++ "_")%string ->
               slots o' k' = slots o k'.
Proof.
  intros o. eexists. split; [reflexivity|].
  apply (@SpinArray_setattr_frame o _ "T1" [2; 2]). reflexivity.
Defined.

(** A reachable spin array has a mask that fits, and its attributes have
    their shapes. *)
Lemma reachable_fits (o : SpinArrayObj) :
  SpinArray_reachable o -> mask_fits (base o) /\ attrs_shaped o.
Proof.
  induction 1 as [shp msk T1 T2 γ M o H | o k_ v_ o' _ [IHf IHs] H].
  - split; [|eapply init_shaped; eassumption].
    unfold SpinArray_init in H. bind_inv H.
    apply SpinArray_new_fits in E.
    bind_inv H. bind_inv H. bind_inv H.
    apply SpinArray_setattr_target in E0, E1, E2, H.
    destruct E0 as (? & ? & -> & _). destruct E1 as (? & ? & -> & _).
    destruct E2 as (? & ? & -> & _). destruct H as (? & ? & -> & _).
    exact E.
  - split; [|eapply setattr_keeps_shaped; eassumption].
    apply SpinArray_setattr_target in H. destruct H as (? & ? & -> & _).
    exact IHf.
Qed.

Lemma expand_refl (s : tshape) : expand s s = Ok s.
Proof.
  unfold expand.
  assert (H : forall l, expandable_rev l l = true).
  { induction l as [|a l IH]; simpl; [reflexivity|].
    rewrite Nat.eqb_refl, IH. reflexivity. }
  rewrite H. reflexivity.
Qed.

(** Assigning to a compact slot a tensor that has the shape kept for it. *)
Lemma setattr_exact (o : SpinArrayObj) (k : string) (n q : nat) :
  shape (base o) <> [] -> batch (base o) = n -> nM (base o) = q ->
  In k ["T1_"; "T2_"; "γ_"]%string ->
  SpinArray_setattr o k [n; q] = Ok (set_slot k [n; q] o).
Proof.
  intros Hs <- <- Hk. unfold SpinArray_setattr, batch, shape0.
  destruct (shape (base o)) as [|n s]; [contradiction|].
  simpl hd. simpl in Hk.
  destruct Hk as [<-|[<-|[<-|[]]]]; cbn -[expand];
    rewrite expand_refl; reflexivity.
Qed.

Lemma setattr_exact_M (o : SpinArrayObj) (n q : nat) :
  shape (base o) <> [] -> batch (base o) = n -> nM (base o) = q ->
  SpinArray_setattr o "M_" [n; q; 3] = Ok (set_slot "M_" [n; q; 3] o).
Proof.
  intros Hs <- <-. unfold SpinArray_setattr, batch.
  destruct (shape (base o)) as [|n s]; [contradiction|].
  simpl hd. cbn -[shape_eqb expand].
  unfold shape_eqb.
  destruct (list_eq_dec Nat.eq_dec [n; nM (base o); 3] [n; nM (base o); 3])
    as [_|H]; [reflexivity | contradiction H; reflexivity].
Qed.

Lemma get_slot_shaped (o : SpinArrayObj) :
  attrs_shaped o ->
  get_slot o "T1_" = Ok [batch (base o); nM (base o)] /\
  get_slot o "T2_" = Ok [batch (base o); nM (base o)] /\
  get_slot o "γ_" = Ok [batch (base o); nM (base o)] /\
  get_slot o "M_" = Ok [batch (base o); nM (base o); 3].
Proof.
  intros (_ & H1 & H2 & H3 & H4). unfold get_slot.
  rewrite H1, H2, H3, H4. auto.
Qed.

(** X6. [SpinArray.to] returns on every reachable spin array, and what it
    returns has the same shape and mask and compact attributes of the same
    shapes. *)
Theorem SpinArray_to_keeps (o : SpinArrayObj) (same : bool) :
  SpinArray_reachable o ->
  exists o',
    SpinArray_to o same = Ok o' /\ base o' = base o /\ attrs_shaped o'.
Proof.
  intros Hr. apply reachable_fits in Hr. destruct Hr as [Hf Ha].
  unfold SpinArray_to. destruct same; [exists o; auto|].
  destruct (get_slot_shaped Ha) as (-> & -> & -> & ->). cbn [bind].
  pose proof Ha as (Hs & _).
  unfold SpinArray_init, SpinArray_new.
  unfold mask_fits, Nd in Hf. rewrite Hf, Nat.eqb_refl. cbn [py_assert bind].
  destruct (base o) as [shp m] eqn:Hb. cbn [shape mask] in *.
  set (sp := {| shape := shp; mask := m |}).
  set (o0 := {| base := sp; slots := fun _ => None |}).
  rewrite (@setattr_exact o0 "T1_" (batch sp) (nM sp))
    by (simpl; auto).
  cbn [bind].
  rewrite (@setattr_exact _ "T2_" (batch sp) (nM sp)) by (simpl; auto).
  cbn [bind].
  rewrite (@setattr_exact _ "γ_" (batch sp) (nM sp)) by (simpl; auto).
  cbn [bind].
  rewrite (@setattr_exact_M _ (batch sp) (nM sp)) by (simpl; auto).
  eexists. split; [reflexivity|]. split; [reflexivity|].
  unfold attrs_shaped. simpl. auto.
Qed.

Lemma SpinArray_to_keeps_witness :
  exists o,
    SpinArray_init [2; 2; 2] (Some [true; false; true; true]) [] [] [] [3]
    = Ok o /\
    SpinArray_reachable o /\
    exists o',
      SpinArray_to o false = Ok o' /\ base o' = base o /\ attrs_shaped o'.
Proof.
  eexists. split; [reflexivity|].
  match goal with
  | |- SpinArray_reachable ?x /\ _ => assert (R : SpinArray_reachable x)
  end.
  { eapply reach_init
      with (shp := [2; 2; 2]) (msk := Some [true; false; true; true])
           (T1 := []) (T2 := []) (γ := []) (M := [3]).
    reflexivity. }
  split; [exact R|]. exact (@SpinArray_to_keeps _ false R).
Defined.

Lemma count_true_repeat (n : nat) : count_true (repeat true n) = n.
Proof.
  induction n as [|n IH]; [reflexivity|].
  simpl repeat. rewrite count_true_cons, IH. reflexivity.
Qed.

(** X7. [SpinCube.to], when the device or the dtype changes, builds the new
    cube without handing over the mask: for a reachable spin array whose
    mask keeps neither one nor all of the positions, the construction of the
    spin array of the new cube raises. *)
Theorem SpinCube_to_loses_mask (o : SpinArrayObj) :
  SpinArray_reachable o ->
  nM (base o) <> 1 -> nM (base o) <> prod (Nd (base o)) ->
  SpinCube_to_spinarray o false = Raise RuntimeError.
Proof.
  intros Hr H1 HP. apply reachable_fits in Hr. destruct Hr as [Hf Ha].
  unfold SpinCube_to_spinarray.
  destruct (get_slot_shaped Ha) as (-> & -> & -> & ->). cbn [bind].
  pose proof Ha as (Hs & _).
  unfold SpinArray_init, SpinArray_new.
  rewrite repeat_length, Nat.eqb_refl. cbn [py_assert bind].
  destruct (base o) as [shp m] eqn:Hb.
  unfold Nd, nM, batch in *. cbn [shape mask] in *.
  destruct shp as [|n s]; [contradiction|]. cbn [hd tl] in *.
  unfold SpinArray_setattr at 4. cbn -[expand count_true].
  unfold expand. unfold nM. cbn [mask rev app expandable_rev].
  rewrite count_true_repeat.
  apply Nat.eqb_neq in H1, HP. rewrite H1, HP. reflexivity.
Qed.

Lemma SpinCube_to_loses_mask_witness :
  exists o,
    SpinArray_init [2; 2; 2] (Some [true; false; true; true]) [] [] [] [3]
    = Ok o /\
    SpinArray_reachable o /\
    SpinCube_to_spinarray o false = Raise RuntimeError.
Proof.
  eexists. split; [reflexivity|].
  match goal with
  | |- SpinArray_reachable ?x /\ _ => assert (R : SpinArray_reachable x)
  end.
  { eapply reach_init
      with (shp := [2; 2; 2]) (msk := Some [true; false; true; true])
           (T1 := []) (T2 := []) (γ := []) (M := [3]).
    reflexivity. }
  split; [exact R|].
  apply (@SpinCube_to_loses_mask _ R); simpl; unfold nM, count_true; simpl;
    lia.
Defined.

(** ** Pulse: [rf] and [gr] stay in step *)

Lemma dim_at_ok (s : tshape) (i n : nat) :
  dim_at s i = Ok n -> nth_error s i = Some n.
Proof.
  unfold dim_at. destruct (nth_error s i); intros H;
    [injection H as ->; reflexivity | discriminate].
Qed.

Lemma assert_same_N_nT_ok (v shp : tshape) (u : unit) :
  assert_same_N_nT v shp = Ok u ->
  exists N nT,
    nth_error v 0 = Some N /\ nth_error shp 0 = Some N /\
    nth_error v 2 = Some nT /\ nth_error shp 2 = Some nT.
Proof.
  unfold assert_same_N_nT. intros H. bind_inv H. bind_inv H.
  destruct (Nat.eqb_spec a a0) as [->|]; simpl in H; [|discriminate].
  bind_inv H. bind_inv H. apply py_assert_ok, Nat.eqb_eq in H. subst.
  apply dim_at_ok in E, E0, E1, E2. eauto 10.
Qed.

Lemma pulse_shape_ok (p : PulseObj) (k : string) (s : tshape) :
  pulse_shape p k = Ok s -> p k = Some (VTensor s).
Proof.
  unfold pulse_shape. destruct (p k) as [[s'|]|]; intros H;
    try discriminate. injection H as ->. reflexivity.
Qed.

Lemma as_tensor_ok (v : pyval) (s : tshape) :
  as_tensor v = Ok s -> v = VTensor s.
Proof.
  destruct v; simpl; intros H; [injection H as ->; reflexivity|discriminate].
Qed.

Lemma Pulse_setattr_keeps (p p' : PulseObj) (k : string) (v : pyval) :
  rf_gr_agree p -> Pulse_setattr p k v = Ok p' -> rf_gr_agree p'.
Proof.
  intros (r & g & N & nT & Hr & Hg & R0 & G0 & R2 & G2) H.
  unfold Pulse_setattr in H. bind_inv H. bind_inv H. bind_inv H. bind_inv H.
  destruct (mem k Pulse_slots); [|discriminate]. injection H as <-.
  unfold rf_gr_agree, pulse_set.
  destruct (String.eqb_spec k "gr") as [->|Hkg].
  - cbn in E1, E2 |- *. bind_inv E1. bind_inv E1.
    apply pulse_shape_ok in E3. apply as_tensor_ok in E4. subst a0.
    rewrite Hr in E3. injection E3 as <-.
    apply assert_same_N_nT_ok in E1.
    destruct E1 as (N' & nT' & V0 & S0 & V2 & S2).
    rewrite R0 in S0. rewrite R2 in S2. injection S0 as <-.
    injection S2 as <-. exists r, a4, N, nT. auto 10.
  - destruct (String.eqb_spec k "rf") as [->|Hkr].
    + cbn in E1, E2 |- *. bind_inv E2. bind_inv E2.
      apply pulse_shape_ok in E3. apply as_tensor_ok in E4. subst a0.
      rewrite Hg in E3. injection E3 as <-.
      apply assert_same_N_nT_ok in E2.
      destruct E2 as (N' & nT' & V0 & S0 & V2 & S2).
      rewrite G0 in S0. rewrite G2 in S2. injection S0 as <-.
      injection S2 as <-. exists a4, g, N, nT. auto 10.
    + exists r, g, N, nT.
      assert (Er : String.eqb "rf" k = false)
        by (apply String.eqb_neq; congruence).
      assert (Eg : String.eqb "gr" k = false)
        by (apply String.eqb_neq; congruence).
      rewrite Er, Eg. auto 10.
Qed.

Lemma Pulse_init_agree rf gr dt desc device dtype p :
  Pulse_init rf gr dt desc device dtype = Ok p -> rf_gr_agree p.
Proof.
  unfold Pulse_init. intros H. bind_inv H. bind_inv H. bind_inv H.
  bind_inv H. bind_inv H.
  apply assert_same_N_nT_ok in E2.
  destruct E2 as (N & nT & V0 & S0 & V2 & S2).
  eapply Pulse_setattr_keeps; [|exact H].
  eapply Pulse_setattr_keeps; [|exact E3].
  exists a0, a1, N, nT. unfold pulse_set. cbn. auto 10.
Qed.

(** X8. In every pulse that [__init__] or an assignment has returned, [rf]
    and [gr] are tensors of at least three axes that agree on the batch size
    and on the number of time points. *)
Theorem Pulse_rf_gr_agree (p : PulseObj) :
  Pulse_reachable p -> rf_gr_agree p.
Proof.
  induction 1 as [rf gr dt desc device dtype p H | p k v p' _ IH H].
  - eapply Pulse_init_agree; eassumption.
  - eapply Pulse_setattr_keeps; eassumption.
Qed.

Lemma Pulse_rf_gr_agree_witness :
  exists p p',
    Pulse_init None (Some [2; 3; 512]) (VTensor []) (VStr "generic pulse")
      "cpu" "float32" = Ok p /\
    Pulse_setattr p "rf" (VTensor [2; 2; 512; 8]) = Ok p' /\
    Pulse_reachable p' /\ rf_gr_agree p'.
Proof.
  do 2 eexists. split; [reflexivity|]. split; [reflexivity|].
  match goal with
  | |- Pulse_reachable ?x /\ _ => assert (R : Pulse_reachable x)
  end.
  { eapply pulse_setattr with (k := "rf"%string)
                              (v := VTensor [2; 2; 512; 8]).
    - eapply pulse_init
        with (rf := None) (gr := Some [2; 3; 512]) (dt := VTensor [])
             (desc := VStr "generic pulse") (device := "cpu"%string)
             (dtype := "float32"%string).
      reflexivity.
    - reflexivity. }
  split; [exact R|]. exact (Pulse_rf_gr_agree R).
Defined.

(** ** SpinCube: when the locations can be computed *)

Lemma meshgrid_crdn_nth (dims : list nat) (i : nat) :
  i < length dims ->
  exists g, nth_error (meshgrid (map crdn dims)) i = Some g /\
            length g = prod dims.
Proof.
  intros Hi.
  destruct (nth_error (meshgrid (map crdn dims)) i) as [g|] eqn:E.
  - exists g. split; [reflexivity|].
    destruct (@meshgrid_spec _ _ _ E) as [Hl _].
    rewrite map_length_crdn in Hl. exact Hl.
  - apply nth_error_None in E. rewrite length_meshgrid, length_map in E.
    lia.
Qed.

Lemma update_axis_returns (sp : SpinArray) (fv of_ l : list vec3) (i : nat) :
  mask_fits sp -> i < length (Nd sp) ->
  if bc_rows (batch sp) fv && bc_rows (batch sp) of_
  then exists l', update_axis sp fv of_ (meshgrid (map crdn (Nd sp))) l i
                  = Ok l'
  else update_axis sp fv of_ (meshgrid (map crdn (Nd sp))) l i
       = Raise RuntimeError.
Proof.
  intros Hm Hi. destruct (meshgrid_crdn_nth _ Hi) as (g & Hg & Hl).
  unfold update_axis. rewrite Hg. unfold mask_fits in Hm.
  rewrite Hl, <- Hm, Nat.eqb_refl. cbn [negb].
  destruct (bc_rows (batch sp) fv && bc_rows (batch sp) of_); cbn [negb].
  - eexists. reflexivity.
  - reflexivity.
Qed.

Lemma update_axis_no_axis (sp : SpinArray) (fv of_ l : list vec3) (i : nat) :
  length (Nd sp) <= i ->
  update_axis sp fv of_ (meshgrid (map crdn (Nd sp))) l i = Raise IndexError.
Proof.
  intros Hi. unfold update_axis.
  assert (E : nth_error (meshgrid (map crdn (Nd sp))) i = None)
    by (apply nth_error_None; rewrite length_meshgrid, length_map; exact Hi).
  rewrite E. reflexivity.
Qed.

(** When [_update_loc_] returns. *)
Lemma _update_loc__returns (c : SpinCube) :
  mask_fits (spinarray c) ->
  if (3 <=? length (Nd (spinarray c)))
     && (bc_rows (batch (spinarray c)) (fov c)
         && bc_rows (batch (spinarray c)) (ofst c))
  then snd (_update_loc_ c) = Ok tt
  else exists e, snd (_update_loc_ c) = Raise e.
Proof.
  intros Hm. unfold _update_loc_. cbn [snd update_axes].
  set (sp := spinarray c) in *.
  pose proof (fun l i => @update_axis_returns sp (fov c) (ofst c) l i Hm)
    as Hret.
  pose proof (@update_axis_no_axis sp (fov c) (ofst c)) as Hno.
  destruct (bc_rows (batch sp) (fov c) && bc_rows (batch sp) (ofst c)).
  - destruct (Nat.leb_spec 3 (length (Nd sp))) as [H3|H3]; cbn [andb].
    + destruct (Hret (loc_ c) 0 ltac:(lia)) as [l0 ->].
      destruct (Hret l0 1 ltac:(lia)) as [l1 ->].
      destruct (Hret l1 2 ltac:(lia)) as [l2 ->].
      reflexivity.
    + destruct (Nat.lt_ge_cases 0 (length (Nd sp))) as [H0|H0];
        [|rewrite Hno by lia; eexists; reflexivity].
      destruct (Hret (loc_ c) 0 H0) as [l0 ->].
      destruct (Nat.lt_ge_cases 1 (length (Nd sp))) as [H1|H1];
        [|rewrite Hno by lia; eexists; reflexivity].
      destruct (Hret l0 1 H1) as [l1 ->].
      rewrite Hno by lia. eexists. reflexivity.
  - rewrite andb_false_r.
    destruct (Nat.lt_ge_cases 0 (length (Nd sp))) as [H0|H0];
      [|rewrite Hno by lia; eexists; reflexivity].
    rewrite (Hret (loc_ c) 0 H0). eexists. reflexivity.
Qed.

Lemma _update_loc__args (c : SpinCube) :
  mask_fits (spinarray c) -> snd (_update_loc_ c) = Ok tt ->
  3 <= length (Nd (spinarray c)) /\
  bc_rows (batch (spinarray c)) (fov c) = true /\
  bc_rows (batch (spinarray c)) (ofst c) = true.
Proof.
  intros Hm H. pose proof (@_update_loc__returns c Hm) as R.
  destruct (Nat.leb_spec 3 (length (Nd (spinarray c)))) as [H3|H3];
    cbn [andb] in R.
  - destruct (bc_rows (batch (spinarray c)) (fov c)); cbn [andb] in R.
    + destruct (bc_rows (batch (spinarray c)) (ofst c)).
      * auto.
      * destruct R as [e R]. congruence.
    + destruct R as [e R]. congruence.
  - destruct R as [e R]. congruence.
Qed.


Lemma SpinArray_init_base shp msk T1 T2 γ M o :
  SpinArray_init shp msk T1 T2 γ M = Ok o ->
  SpinArray_new shp msk = Ok (base o).
Proof.
  unfold SpinArray_init. intros H.
  bind_inv H. bind_inv H. bind_inv H. bind_inv H.
  apply SpinArray_setattr_ok in E0, E1, E2, H.
  destruct E0 as (? & ? & -> & _). destruct E1 as (? & ? & -> & _).
  destruct E2 as (? & ? & -> & _). destruct H as (? & ? & -> & _).
  exact E.
Qed.

(** What [SpinCube.__init__] has done when it returns. *)
Lemma SpinCube_init_ok shp fv msk of_ Δf_ T1_ T2_ γ_ M_ c :
  SpinCube_init shp fv msk of_ Δf_ T1_ T2_ γ_ M_ = Ok c ->
  SpinArray_new shp msk = Ok (spinarray c) /\ fov c = fv /\ ofst c = of_ /\
  cube_sized c /\ loc_invariant c /\
  3 <= length (Nd (spinarray c)) /\
  bc_rows (batch (spinarray c)) fv = true /\
  bc_rows (batch (spinarray c)) of_ = true.
Proof.
  unfold SpinCube_init. intros H. bind_inv H. rename a into o.
  apply SpinArray_init_base in E. pose proof (SpinArray_new_fits _ _ E) as Hm.
  cbv zeta in H.
  set (c0 := mkSpinCube (base o) fv of_
               (repeat v0 (batch (base o) * nM (base o)))) in *.
  destruct (snd (_update_loc_ c0)) as [[]|e] eqn:Hu; [|discriminate H].
  cbn [bind] in H.
  destruct (expand Δf_ [batch (base o); nM (base o)]); [|discriminate H].
  cbn [bind] in H.
  assert (Hc : c = fst (_update_loc_ c0)) by (injection H as <-; reflexivity).
  clear H. rewrite Hc.
  assert (Hs : cube_sized c0)
    by (split; [exact Hm | apply repeat_length]).
  destruct (_update_loc__frame c0) as (F1 & F2 & F3).
  destruct (@_update_loc__args c0 Hm Hu) as (H3 & Hf & Ho).
  rewrite F1, F2, F3.
  split; [exact E|]. split; [reflexivity|]. split; [reflexivity|].
  split; [apply _update_loc__sized; exact Hs|].
  split; [apply _update_loc__ok; assumption|].
  auto.
Qed.



(** X9. When [SpinCube.__init__] returns, the mask has the size of the
    spatial grid, the shape has three spatial axes at least, and the rows
    of [fov] and of [ofst] broadcast along the batch axis (one row, or one
    per batch element); the cube it returns holds the shape, [fov] and
    [ofst] it was given, and locations that satisfy the location
    invariant.  So no cube is built over fewer than three spatial axes. *)
Theorem SpinCube_init_returns (shp : list nat) (fv : list vec3)
    (msk : option (list bool)) (of_ : list vec3)
    (Δf_ T1_ T2_ γ_ M_ : tshape) (c : SpinCube) :
  SpinCube_init shp fv msk of_ Δf_ T1_ T2_ γ_ M_ = Ok c ->
  cube_args_ok shp fv msk of_ = true /\
  shape (spinarray c) = shp /\ fov c = fv /\ ofst c = of_ /\
  loc_invariant c.
Proof.
  intros H. apply SpinCube_init_ok in H.
  destruct H as (Hn & Hf & Ho & _ & Hi & H3 & Bf & Bo).
  unfold SpinArray_new in Hn. bind_inv Hn. injection Hn as Hn.
  apply py_assert_ok in E.
  assert (Hs : shape (spinarray c) = shp) by (rewrite <- Hn; reflexivity).
  split; [|auto].
  unfold cube_args_ok. rewrite E. cbn [andb].
  unfold Nd, batch in H3, Bf, Bo. rewrite Hs in H3, Bf, Bo.
  apply Nat.leb_le in H3. rewrite H3, Bf, Bo. reflexivity.
Qed.

Lemma SpinCube_init_returns_witness :
  exists c,
    SpinCube_init [2; 2; 1; 1] [V3 3 3 3] (Some [false; true])
      [V3 0 0 1; V3 0 0 2] [] [] [2; 1] [1] [3] = Ok c /\
    cube_args_ok [2; 2; 1; 1] [V3 3 3 3] (Some [false; true])
      [V3 0 0 1; V3 0 0 2] = true /\
    loc_invariant c.
Proof.
  eexists. split; [reflexivity|].
  pose proof (@SpinCube_init_returns [2; 2; 1; 1] [V3 3 3 3]
                (Some [false; true]) [V3 0 0 1; V3 0 0 2]
                [] [] [2; 1] [1] [3] _ eq_refl) as H.
  split; [apply H | apply H].
Defined.





(** ** The simulators: shapes and composition *)

Open Scope R_scope.

Lemma length_relax (E1 E1_1 E2 : bcast) (M : list vec3) :
  length (relax E1 E1_1 E2 M) = length M.
Proof. unfold relax, mapi. apply length_mapi_from. Qed.

Lemma length_rotate (g : bcast) (b M : list vec3) :
  length b = length M -> length (rotate g b M) = length M.
Proof.
  intros H. unfold rotate, mapi. destruct (any_nonzero _); [|reflexivity].
  rewrite length_map, length_combine, length_mapi_from, H.
  apply Nat.min_id.
Qed.

Lemma length_steps (E1 E1_1 E2 g : bcast) (Beff : list (list vec3))
    (M : list vec3) :
  forallb (fun b => (length b =? length M)%nat) Beff = true ->
  length (fold_left (fun M b => relax E1 E1_1 E2 (rotate g b M)) Beff M)
  = length M.
Proof.
  revert M. induction Beff as [|b Beff IH]; intros M H; simpl in *;
    [reflexivity|].
  apply andb_true_iff in H. destruct H as [Hb H]. apply Nat.eqb_eq in Hb.
  assert (Hl : length (relax E1 E1_1 E2 (rotate g b M)) = length M)
    by (rewrite length_relax; apply length_rotate; exact Hb).
  rewrite IH by (rewrite Hl; exact H). exact Hl.
Qed.

(** X13. Simulating two field sequences one after the other is simulating
    their concatenation along time, errors included. *)
Theorem blochsim_concat (M : list vec3) (B1 B2 : list (list vec3))
    (T1 T2 : option bcast) (γ dt : bcast) :
  blochsim M (B1 ++ B2) T1 T2 γ dt
  = (M' <- blochsim M B1 T1 T2 γ dt ;; blochsim M' B2 T1 T2 γ dt).
Proof.
  unfold blochsim. rewrite forallb_app.
  destruct (forallb (fun b => (length b =? length M)%nat) B1) eqn:H1;
    cbn [andb py_assert bind]; [|reflexivity].
  rewrite length_steps by exact H1.
  destruct (forallb (fun b => (length b =? length M)%nat) B2) eqn:H2;
    cbn [py_assert bind]; [|reflexivity].
  rewrite fold_left_app. reflexivity.
Qed.




(** X15. A free precession of duration [d1] followed by one of duration
    [d2] is one free precession of duration [d1 + d2], for the same [T1],
    [T2] and [Δf], errors included. *)
Theorem freeprec_additive (M : list vec3) (d1 d2 : bcast)
    (T1 T2 Δf : option bcast) :
  (M' <- freeprec M d1 T1 T2 Δf ;; freeprec M' d2 T1 T2 Δf)
  = freeprec M (fun i => d1 i + d2 i) T1 T2 Δf.
Proof.
  unfold freeprec.
  destruct T1 as [T1|], T2 as [T2|]; cbn [is_none Bool.eqb py_assert bind];
    try reflexivity; destruct Δf as [Δf|]; f_equal; unfold mapi;
    rewrite ?mapi_from_mapi_from; try apply mapi_from_ext; try reflexivity;
    intros i m.
  - replace (- (2 * PI) * Δf i * (d1 i + d2 i))
      with (- (2 * PI) * Δf i * d1 i + - (2 * PI) * Δf i * d2 i) by ring.
    replace (- (d1 i + d2 i) / T1 i) with (- d1 i / T1 i + - d2 i / T1 i)
      by (unfold Rdiv; ring).
    replace (- (d1 i + d2 i) / T2 i) with (- d1 i / T2 i + - d2 i / T2 i)
      by (unfold Rdiv; ring).
    rewrite cos_plus, sin_plus, !exp_plus.
    apply vec3_eq; cbn [vx vy vz]; ring.
  - replace (- (d1 i + d2 i) / T1 i) with (- d1 i / T1 i + - d2 i / T1 i)
      by (unfold Rdiv; ring).
    replace (- (d1 i + d2 i) / T2 i) with (- d1 i / T2 i + - d2 i / T2 i)
      by (unfold Rdiv; ring).
    rewrite !exp_plus.
    apply vec3_eq; cbn [vx vy vz]; ring.
  - replace (- (2 * PI) * Δf i * (d1 i + d2 i))
      with (- (2 * PI) * Δf i * d1 i + - (2 * PI) * Δf i * d2 i) by ring.
    rewrite cos_plus, sin_plus.
    apply vec3_eq; cbn [vx vy vz]; ring.
Qed.

Lemma mv_mm (A2 A1 : mat3) (m : vec3) : mv A2 (mv A1 m) = mv (mm A2 A1) m.
Proof.
  destruct A2 as [[a b c] [d e f] [g h k]].
  destruct A1 as [[a' b' c'] [d' e' f'] [g' h' k']]. destruct m as [x y z].
  apply vec3_eq; unfold mv, mm, col, dot, comp; cbn [vx vy vz row1 row2 row3];
    ring.
Qed.

Lemma mv_vadd (A : mat3) (a b : vec3) :
  mv A (vadd a b) = vadd (mv A a) (mv A b).
Proof.
  destruct A as [[a1 b1 c1] [d1 e1 f1] [g1 h1 k1]].
  destruct a as [x y z], b as [x' y' z'].
  apply vec3_eq; unfold mv, vadd, dot; cbn [vx vy vz row1 row2 row3]; ring.
Qed.

Lemma vadd_assoc (a b c : vec3) : vadd (vadd a b) c = vadd a (vadd b c).
Proof.
  apply vec3_eq; unfold vadd; cbn [vx vy vz]; ring.
Qed.

Lemma affine_compose (A2 A1 : mat3) (B2 B1 m : vec3) :
  vadd (mv A2 (vadd (mv A1 m) B1)) B2
  = vadd (mv (mm A2 A1) m) (vadd (mv A2 B1) B2).
Proof. rewrite mv_vadd, mv_mm, vadd_assoc. reflexivity. Qed.

Lemma ab_compose (M : list vec3) (A1 A2 : nat -> mat3) (B1 B2 : nat -> vec3) :
  blochsim_ab (blochsim_ab M A1 B1) A2 B2
  = blochsim_ab M (fun i => mm (A2 i) (A1 i))
      (fun i => vadd (mv (A2 i) (B1 i)) (B2 i)).
Proof.
  unfold blochsim_ab, mapi.
  rewrite mapi_from_mapi_from. apply mapi_from_ext. intros i m.
  apply affine_compose.
Qed.

Lemma ab_identity (M : list vec3) :
  blochsim_ab M (fun _ => I3) (fun _ => v0) = M.
Proof.
  unfold blochsim_ab, mapi.
  apply mapi_from_id. intros i [x y z].
  apply vec3_eq; unfold mv, vadd, dot, I3, v0;
    cbn [vx vy vz row1 row2 row3]; ring.
Qed.

(** X16. Two propagator steps compose into one: applying [(A1, B1)] and
    then [(A2, B2)] is applying [(A2·A1, A2·B1 + B2)]; the identity matrix
    with a zero vector leaves the magnetization as it is. *)
Theorem blochsim_ab_compose (M : list vec3) (A1 A2 : nat -> mat3)
    (B1 B2 : nat -> vec3) :
  blochsim_ab (blochsim_ab M A1 B1) A2 B2
  = blochsim_ab M (fun i => mm (A2 i) (A1 i))
      (fun i => vadd (mv (A2 i) (B1 i)) (B2 i)) /\
  blochsim_ab M (fun _ => I3) (fun _ => v0) = M.
Proof. split; [apply ab_compose | apply ab_identity]. Qed.









Close Scope R_scope.

(** ** The simulators on the store: what is overwritten *)

Lemma length_store (h : heap) (p : nat) (v : list vec3) :
  length (store h p v) = length h.
Proof.
  revert p. induction h as [|x h IH]; intros [|p]; simpl; auto.
Qed.

Lemma load_store_same (h : heap) (p : nat) (v : list vec3) :
  p < length h -> load (store h p v) p = v.
Proof.
  unfold load. revert p. induction h as [|x h IH]; intros [|p] H; simpl in *;
    try lia; [reflexivity|]. apply IH. lia.
Qed.

Lemma load_store_other (h : heap) (p q : nat) (v : list vec3) :
  p <> q -> load (store h p v) q = load h q.
Proof.
  unfold load. revert p q. induction h as [|x h IH]; intros [|p] [|q] H;
    simpl; try reflexivity; try lia. apply IH. lia.
Qed.

Lemma load_app_old (h : heap) (v : list vec3) (p : nat) :
  p < length h -> load (h ++ [v]) p = load h p.
Proof. intros H. unfold load. apply app_nth1. exact H. Qed.

Lemma load_app_new (h : heap) (v : list vec3) :
  load (h ++ [v]) (length h) = v.
Proof.
  unfold load. rewrite app_nth2 by lia. rewrite Nat.sub_diag. reflexivity.
Qed.

(** One turn of the loop: the tensor that [M1] names holds the relaxed,
    possibly rotated magnetization; it is a new tensor when some spin is
    turned and the tensor of [M] itself otherwise; no other tensor is
    written. *)
Lemma loop_body_spec (E1 E1_1 E2 g : bcast) (h : heap) (M : nat)
    (b : list vec3) :
  M < length h ->
  let r := loop_body E1 E1_1 E2 g h M b in
  load (fst r) (snd r) = relax E1 E1_1 E2 (rotate g b (load h M)) /\
  snd r < length (fst r) /\
  (forall p, p < length h -> p <> snd r -> load (fst r) p = load h p) /\
  (if any_nonzero (map snd (mapi (fun i bi => beff2uϕ bi (g i)) b))
   then snd r = length h /\ length (fst r) = S (length h)
   else snd r = M /\ length (fst r) = length h).
Proof.
  intros HM. unfold loop_body, rotate.
  destruct (any_nonzero (map snd (mapi (fun i bi => beff2uϕ bi (g i)) b))).
  - cbn [alloc fst snd]. rewrite load_app_new.
    repeat split.
    + apply load_store_same. rewrite length_app. simpl. lia.
    + rewrite length_store, length_app. simpl. lia.
    + intros p Hp Hne. rewrite load_store_other by lia.
      apply load_app_old. exact Hp.
    + rewrite length_store, length_app. simpl. lia.
  - cbn [fst snd]. repeat split.
    + apply load_store_same. exact HM.
    + rewrite length_store. exact HM.
    + intros p Hp Hne. apply load_store_other. lia.
    + apply length_store.
Qed.

(** The loop: the tensor returned holds what the loop computes on values;
    it is the tensor of [M] or a new one; no other tensor that was there is
    written. *)
Lemma loop_spec (E1 E1_1 E2 g : bcast) (Beff : list (list vec3)) (h : heap)
    (M : nat) :
  M < length h ->
  let r := fold_left (fun s b => loop_body E1 E1_1 E2 g (fst s) (snd s) b)
             Beff (h, M) in
  load (fst r) (snd r)
  = fold_left (fun M b => relax E1 E1_1 E2 (rotate g b M)) Beff (load h M) /\
  snd r < length (fst r) /\
  (snd r = M \/ length h <= snd r) /\
  (forall p, p < length h -> p <> M -> load (fst r) p = load h p).
Proof.
  revert h M. induction Beff as [|b Beff IH]; intros h M HM.
  - simpl. auto.
  - cbn [fold_left fst snd].
    destruct (@loop_body_spec E1 E1_1 E2 g h M b HM) as (V & L & F & C).
    destruct (loop_body E1 E1_1 E2 g h M b) as [h1 M1] eqn:Eb.
    cbn [fst snd] in *.
    destruct (IH h1 M1 L) as (V' & L' & C' & F').
    assert (HM1 : (M1 = M \/ M1 = length h) /\ length h <= length h1).
    { destruct (any_nonzero _); destruct C as [-> ->]; auto. }
    destruct HM1 as [HM1 Hle].
    repeat split.
    + rewrite V', V. reflexivity.
    + exact L'.
    + destruct C' as [-> | C']; destruct HM1 as [-> | ->]; auto; lia.
    + intros p Hp Hne. rewrite F' by (destruct HM1 as [-> | ->]; lia).
      apply F; [exact Hp|]. destruct HM1 as [-> | ->]; lia.
Qed.

(** X18. [blochsim] with its tensors in a store computes, in the tensor it
    returns, what [blochsim] computes on values, errors included; and it
    writes no tensor of the caller other than [M]. *)
Theorem blochsim_h_refines (h : heap) (M : nat) (Beff : list (list vec3))
    (T1 T2 : option bcast) (γ dt : bcast) :
  M < length h ->
  (r <- blochsim_h h M Beff T1 T2 γ dt ;; Ok (load (fst r) (snd r)))
  = blochsim (load h M) Beff T1 T2 γ dt /\
  forall r, blochsim_h h M Beff T1 T2 γ dt = Ok r ->
    forall p, p < length h -> p <> M -> load (fst r) p = load h p.
Proof.
  intros HM. unfold blochsim_h, blochsim.
  destruct (forallb (fun b => length b =? length (load h M)) Beff);
    cbn [py_assert bind]; [|split; [reflexivity | discriminate]].
  match goal with
  | |- context [fold_left (fun s b => loop_body ?E1 ?E11 ?E2 ?g _ _ _) _ _] =>
      destruct (@loop_spec E1 E11 E2 g Beff h M HM) as (V & _ & _ & F)
  end.
  split.
  - f_equal. exact V.
  - intros r Hr. injection Hr as <-. exact F.
Qed.

Lemma loop_no_turn (E1 E1_1 E2 g : bcast) (Beff : list (list vec3))
    (h : heap) (M : nat) :
  forallb (fun b => negb (any_nonzero
                            (map snd (mapi (fun i bi => beff2uϕ bi (g i)) b))))
    Beff = true ->
  let r := fold_left (fun s b => loop_body E1 E1_1 E2 g (fst s) (snd s) b)
             Beff (h, M) in
  snd r = M /\ length (fst r) = length h.
Proof.
  revert h. induction Beff as [|b Beff IH]; intros h H; simpl in H.
  - simpl. auto.
  - apply andb_true_iff in H. destruct H as [Hb H].
    apply negb_true_iff in Hb. cbn [fold_left fst snd].
    assert (E : loop_body E1 E1_1 E2 g h M b
                = (store h M (relax E1 E1_1 E2 (load h M)), M)).
    { unfold loop_body. rewrite Hb. reflexivity. }
    rewrite E. destruct (IH (store h M (relax E1 E1_1 E2 (load h M))) H)
      as [H1 H2].
    split; [exact H1|]. rewrite H2. apply length_store.
Qed.

(** X19. When no slice of the field turns a spin, as with a field that is
    zero, [blochsim] returns the very tensor it was given, and that tensor,
    the caller's [M], holds the result of the simulation: the relaxation
    has been written into it in place. *)
Theorem blochsim_in_place (h : heap) (M : nat) (Beff : list (list vec3))
    (T1 T2 : option bcast) (γ dt : bcast) (r : heap * nat) :
  M < length h ->
  forallb (fun b => negb (turns γ dt b)) Beff = true ->
  blochsim_h h M Beff T1 T2 γ dt = Ok r ->
  snd r = M /\
  blochsim (load h M) Beff T1 T2 γ dt = Ok (load (fst r) M).
Proof.
  intros HM Ht H. unfold blochsim_h in H. bind_inv H. injection H as <-.
  apply py_assert_ok in E. unfold blochsim. rewrite E.
  cbn [py_assert bind].
  match goal with
  | |- context [fold_left (fun s b => loop_body ?E1 ?E11 ?E2 ?g _ _ _) _ _] =>
      destruct (@loop_spec E1 E11 E2 g Beff h M HM) as (V & _ & _ & _);
      destruct (@loop_no_turn E1 E11 E2 g Beff h M Ht) as (N & _)
  end.
  cbv zeta in V, N. split; [exact N|].
  f_equal. rewrite <- V. rewrite N. reflexivity.
Qed.

(** X21. [blochsim_1step] hands back, as second tensor, the tensor [M] it
    was given, and never reads or writes the tensor [M1] it was given for
    the output; when no spin is turned, the first tensor handed back is [M]
    too, relaxed in place. *)
Theorem blochsim_1step_buffers (h : heap) (M M1 : nat) (b : list vec3)
    (E1 E1_1 E2 γ2πdt : bcast) :
  M < length h ->
  let r := blochsim_1step h M M1 b E1 E1_1 E2 γ2πdt in
  snd (snd r) = M /\
  load (fst r) (fst (snd r))
  = relax E1 E1_1 E2 (rotate γ2πdt b (load h M)) /\
  (M1 < length h -> M1 <> M -> load (fst r) M1 = load h M1) /\
  (any_nonzero (map snd (mapi (fun i bi => beff2uϕ bi (γ2πdt i)) b)) = false
   -> fst (snd r) = M).
Proof.
  intros HM. unfold blochsim_1step. cbn [fst snd].
  destruct (@loop_body_spec E1 E1_1 E2 γ2πdt h M b HM) as (V & L & F & C).
  split; [reflexivity|]. split; [exact V|]. split.
  - intros H1 Hne. apply F; [exact H1|].
    destruct (any_nonzero _); destruct C as [-> _]; lia.
  - intros Hn. rewrite Hn in C. tauto.
Qed.

Lemma turns_zero_field (γ dt : bcast) (n : nat) :
  turns γ dt (repeat v0 n) = false.
Proof.
  unfold turns, mapi.
  apply (any_nonzero_zero_field (fun i => (2 * PI * γ i * dt i)%R) n 0).
Qed.

Lemma turns_x_field : turns (fun _ => 1%R) (fun _ => 1%R) [V3 1 0 0] = true.
Proof.
  unfold turns, mapi, any_nonzero, beff2uϕ. cbn [mapi_from map snd existsb].
  destruct (Req_dec_T (norm (scale (2 * PI * 1 * 1) (V3 1 0 0))) 0)
    as [E|_]; [exfalso | reflexivity].
  unfold norm, dot, scale in E. cbn [vx vy vz] in E.
  pose proof PI_RGT_0 as HPI.
  apply sqrt_eq_0 in E; nra.
Qed.

Lemma blochsim_h_refines_witness :
  let h : heap := [[V3 0 0 1]; [V3 1 0 0]] in
  let Beff := [[V3 1 0 0]; [V3 0 0 0]] in
  0 < length h /\
  (r <- blochsim_h h 0 Beff None None (fun _ => 1%R) (fun _ => 1%R) ;;
   Ok (load (fst r) (snd r)))
  = blochsim (load h 0) Beff None None (fun _ => 1%R) (fun _ => 1%R) /\
  forall r,
    blochsim_h h 0 Beff None None (fun _ => 1%R) (fun _ => 1%R) = Ok r ->
    forall p, p < length h -> p <> 0 -> load (fst r) p = load h p.
Proof.
  intros h Beff.
  assert (H : 0 < length h) by (simpl; lia).
  split; [exact H|].
  exact (@blochsim_h_refines h 0 Beff None None
           (fun _ => 1%R) (fun _ => 1%R) H).
Defined.

Lemma blochsim_in_place_witness :
  let h : heap := [[V3 0 0 1; V3 1 0 0]] in
  let Beff := [repeat v0 2; repeat v0 2] in
  0 < length h /\
  forallb (fun b => negb (turns (fun _ => 1%R) (fun _ => 1%R) b)) Beff = true
  /\
  exists r,
    blochsim_h h 0 Beff (Some (fun _ => 1%R)) (Some (fun _ => 1%R))
      (fun _ => 1%R) (fun _ => 1%R) = Ok r /\
    snd r = 0 /\
    blochsim (load h 0) Beff (Some (fun _ => 1%R)) (Some (fun _ => 1%R))
      (fun _ => 1%R) (fun _ => 1%R) = Ok (load (fst r) 0).
Proof.
  intros h Beff.
  assert (H : 0 < length h) by (simpl; lia).
  assert (Ht : forallb
                 (fun b => negb (turns (fun _ => 1%R) (fun _ => 1%R) b))
                 Beff = true).
  { unfold Beff. cbn [forallb]. rewrite turns_zero_field. reflexivity. }
  split; [exact H|]. split; [exact Ht|]. eexists. split; [reflexivity|].
  eapply (@blochsim_in_place h 0 Beff (Some (fun _ => 1%R))
            (Some (fun _ => 1%R)) (fun _ => 1%R) (fun _ => 1%R) _ H Ht).
  reflexivity.
Defined.

Lemma blochsim_1step_buffers_witness :
  let h : heap := [[V3 0 0 1]; [V3 5 5 5]] in
  let r := blochsim_1step h 0 1 [v0] (fun _ => 1%R) (fun _ => 0%R)
             (fun _ => 1%R) (fun _ => 1%R) in
  0 < length h /\
  snd (snd r) = 0 /\
  load (fst r) (fst (snd r))
  = relax (fun _ => 1%R) (fun _ => 0%R) (fun _ => 1%R)
      (rotate (fun _ => 1%R) [v0] (load h 0)) /\
  (1 < length h -> 1 <> 0 -> load (fst r) 1 = load h 1) /\
  (any_nonzero
     (map snd (mapi (fun i bi => beff2uϕ bi ((fun _ => 1%R) i)) [v0]))
   = false -> fst (snd r) = 0).
Proof.
  intros h r.
  assert (H : 0 < length h) by (simpl; lia).
  split; [exact H|].
  exact (@blochsim_1step_buffers h 0 1 [v0] (fun _ => 1%R) (fun _ => 0%R)
           (fun _ => 1%R) (fun _ => 1%R) H).
Defined.

(** ** The call in [SpinCube.pulse2beff] *)

(** X22. [SpinCube.pulse2beff] raises for every cube and every argument:
    it hands [self.loc_] over as second positional argument, which is the
    parameter [doEmbed] of [SpinArray.pulse2beff], and [doEmbed] again by
    name, so the call is a TypeError whatever the body would do. *)
Theorem SpinCube_pulse2beff_raises {V T : Type}
    (body : list (string * V) -> result T)
    (pulse loc_ doEmbed : V) (Δf : result V) (Δf_ b1Map b1Map_ : V) :
  SpinCube_pulse2beff body pulse loc_ doEmbed Δf Δf_ b1Map b1Map_
  = match Δf with
    | Ok _ => Raise TypeError
    | Raise e => Raise e
    end.
Proof. destruct Δf; reflexivity. Qed.

(** ** Moving a pulse *)

Lemma Pulse_setattr_slots (p p' : PulseObj) (k : string) (v : pyval) :
  Pulse_setattr p k v = Ok p' ->
  (exists s, p "dt"%string = Some (VTensor s)) ->
  (exists w, p "desc"%string = Some w) ->
  (exists s, p' "dt"%string = Some (VTensor s)) /\
  (exists w, p' "desc"%string = Some w).
Proof.
  intros H Hdt Hdesc. unfold Pulse_setattr in H.
  bind_inv H. bind_inv H. bind_inv H. bind_inv H.
  destruct (mem k Pulse_slots); [|discriminate]. injection H as <-.
  unfold pulse_set. split.
  - destruct (String.eqb_spec "dt" k) as [<-|_]; [|exact Hdt].
    cbn in E0. bind_inv E0. injection E0 as <-. eauto.
  - destruct (String.eqb_spec "desc" k) as [<-|_]; [|exact Hdesc]. eauto.
Qed.

Lemma Pulse_setattr_plain (p : PulseObj) (k : string) (v : pyval) :
  k = "dt"%string /\ (exists s, v = VTensor s) \/ k = "desc"%string ->
  Pulse_setattr p k v = Ok (pulse_set k v p).
Proof.
  intros [[-> [s ->]] | ->]; reflexivity.
Qed.

Lemma Pulse_setattr_dt (p p' : PulseObj) (v : pyval) :
  Pulse_setattr p "dt" v = Ok p' ->
  exists s, p' "dt"%string = Some (VTensor s).
Proof.
  destruct v as [s|s]; cbn; intros H; [|discriminate].
  injection H as <-. unfold pulse_set. cbn. eauto.
Qed.

Lemma Pulse_setattr_desc (p p' : PulseObj) (v : pyval) :
  Pulse_setattr p "desc" v = Ok p' -> p' = pulse_set "desc" v p.
Proof. cbn. intros H. injection H as <-. reflexivity. Qed.

(** A reachable pulse has all its tensors. *)
Lemma reachable_pulse_slots (p : PulseObj) :
  Pulse_reachable p ->
  rf_gr_agree p /\
  (exists s, p "dt"%string = Some (VTensor s)) /\
  (exists w, p "desc"%string = Some w).
Proof.
  induction 1 as [rf gr dt desc device dtype p H | p k v p' _ IH H].
  - split; [eapply Pulse_init_agree; eassumption|].
    unfold Pulse_init in H. bind_inv H. bind_inv H. bind_inv H.
    bind_inv H. bind_inv H.
    apply Pulse_setattr_dt in E3. apply Pulse_setattr_desc in H. subst p.
    unfold pulse_set. cbn. split; [exact E3 | eauto].
  - destruct IH as (Ha & Hdt & Hdesc).
    split; [eapply Pulse_setattr_keeps; eassumption|].
    eapply Pulse_setattr_slots; eassumption.
Qed.

Lemma assert_same_N_nT_agree (r g : tshape) (N nT : nat) :
  nth_error r 0 = Some N -> nth_error g 0 = Some N ->
  nth_error r 2 = Some nT -> nth_error g 2 = Some nT ->
  assert_same_N_nT r g = Ok tt.
Proof.
  intros R0 G0 R2 G2. unfold assert_same_N_nT, dim_at.
  rewrite R0, G0, R2, G2. cbn [bind]. rewrite !Nat.eqb_refl. reflexivity.
Qed.

(** X23. [Pulse.to] returns on every pulse that [__init__] or an
    assignment has returned, and the pulse it returns holds the same [rf],
    [gr], [dt] and [desc]. *)
Theorem Pulse_to_keeps (p : PulseObj) (same : bool) (device dtype : string) :
  Pulse_reachable p ->
  exists p',
    Pulse_to p same device dtype = Ok p' /\
    p' "rf"%string = p "rf"%string /\ p' "gr"%string = p "gr"%string /\
    p' "dt"%string = p "dt"%string /\ p' "desc"%string = p "desc"%string.
Proof.
  intros Hr. apply reachable_pulse_slots in Hr.
  destruct Hr as ((r & g & N & nT & Hrf & Hgr & R0 & G0 & R2 & G2)
                  & [s Hdt] & [w Hdesc]).
  unfold Pulse_to. destruct same; [exists p; auto|].
  unfold pulse_shape, pulse_get. rewrite Hrf, Hgr, Hdt, Hdesc. cbn [bind].
  unfold Pulse_init. cbn [is_none andb negb py_assert bind].
  rewrite (assert_same_N_nT_agree _ _ R0 G0 R2 G2). cbn [bind].
  rewrite Pulse_setattr_plain by eauto. cbn [bind].
  rewrite Pulse_setattr_plain by auto.
  eexists. split; [reflexivity|]. unfold pulse_set. cbn. auto.
Qed.

Lemma Pulse_to_keeps_witness :
  exists p,
    Pulse_init None (Some [2; 3; 512]) (VTensor []) (VStr "generic pulse")
      "cpu" "float32" = Ok p /\
    Pulse_reachable p /\
    exists p',
      Pulse_to p false "cuda" "float64" = Ok p' /\
      p' "rf"%string = p "rf"%string /\ p' "gr"%string = p "gr"%string /\
      p' "dt"%string = p "dt"%string /\ p' "desc"%string = p "desc"%string.
Proof.
  eexists. split; [reflexivity|].
  match goal with
  | |- Pulse_reachable ?x /\ _ => assert (R : Pulse_reachable x)
  end.
  { eapply pulse_init
      with (rf := None) (gr := Some [2; 3; 512]) (dt := VTensor [])
           (desc := VStr "generic pulse") (device := "cpu"%string)
           (dtype := "float32"%string).
    reflexivity. }
  split; [exact R|]. exact (@Pulse_to_keeps _ false "cuda" "float64" R).
Defined.

(** ** Masked-out points in [crds_] *)

Lemma length_compact_table (m : list bool) :
  length (compact_table m) = length m.
Proof.
  unfold compact_table. rewrite length_masked_assign. apply repeat_length.
Qed.

Lemma compact_table_false (m : list bool) (p : nat) :
  nth_error m p = Some false ->
  nth_error (compact_table m) p = Some (-1)%Z.
Proof.
  intros H. unfold compact_table.
  assert (Hp : p < length m) by (apply nth_error_Some; rewrite H; discriminate).
  rewrite masked_assign_false by (apply nth_error_nth; exact H).
  apply nth_error_repeat. exact Hp.
Qed.

(** Indexing two tables of one size by the same index arrays reads them at
    the same offsets. *)
Lemma index_tables_rel {T1 T2 : Type} (t1 : list T1) (t2 : list T2)
    (dims : list nat) (idx : list (list Z)) (l : list nat) (r1 : list T1) :
  length t1 = length t2 ->
  mapM (index_at sub_none dims t1 idx) l = Ok r1 ->
  exists r2,
    mapM (index_at sub_none dims t2 idx) l = Ok r2 /\
    Forall2 (fun a b => exists p, nth_error t1 p = Some a /\
                                  nth_error t2 p = Some b) r1 r2.
Proof.
  intros Hl. revert r1. induction l as [|j l IH]; intros r1 H; simpl in H.
  - injection H as <-. exists []. split; [reflexivity | constructor].
  - bind_inv H. bind_inv H. injection H as <-.
    destruct (IH _ E0) as (r2 & Hr2 & F).
    unfold index_at in E. bind_inv E.
    destruct (nth_error t1 a1) as [x|] eqn:Hx; [|discriminate].
    assert (Hp : a1 < length t2).
    { rewrite <- Hl. apply nth_error_Some. rewrite Hx. discriminate. }
    destruct (nth_error t2 a1) as [y|] eqn:Hy;
      [|apply nth_error_None in Hy; lia].
    unfold sub_none in E.
    destruct (skipn (length dims) (point idx j)) eqn:Hs; [|discriminate].
    injection E as <-.
    exists (y :: r2). split.
    + simpl. rewrite Hr2. unfold index_at. rewrite E1. cbn [bind].
      rewrite Hy, Hs. reflexivity.
    + constructor; [|exact F]. exists a1. auto.
Qed.

Lemma filter_count_rel (m : list bool) (sel : list Z) (bs : list bool) :
  Forall2 (fun a b => exists p, nth_error (compact_table m) p = Some a /\
                                nth_error m p = Some b) sel bs ->
  length (filter (fun i => negb (i =? -1)%Z) sel) = count_true bs.
Proof.
  induction 1 as [|a b sel bs (p & Ha & Hb) _ IH]; [reflexivity|].
  rewrite count_true_cons. simpl. destruct b.
  - rewrite (compact_table_true _ _ Hb) in Ha. injection Ha as <-.
    replace (Z.of_nat (rank m p) =? -1)%Z with false
      by (symmetry; apply Z.eqb_neq; lia).
    simpl. rewrite IH. reflexivity.
  - rewrite (compact_table_false _ _ Hb) in Ha. injection Ha as <-.
    simpl. exact IH.
Qed.

(** X24. For [crds] made of one-dimensional integer index arrays, [crds_]
    drops, without a word, the points whose spatial position is
    masked-out: the entry of compact indices it returns has as many
    indices as there are masked-in positions among the selected ones. *)
Theorem crds__drops_masked_out (sp : SpinArray) (crds c_ : list (list Z)) :
  crds_ sp crds = Ok c_ ->
  exists bs inds_,
    adv_index sub_none (1 :: Nd sp) (mask sp) ([0%Z] :: spatial_of sp crds)
    = Ok bs /\
    nth_error c_ 1 = Some inds_ /\
    length inds_ = count_true bs.
Proof.
  unfold crds_, spatial_of. intros H. bind_inv H.
  destruct crds as [|c0 rest]; [discriminate|].
  bind_inv H. injection H as <-. cbn [tl].
  unfold adv_index in E0 |- *. bind_inv E0. rewrite E1. cbn [bind].
  destruct (@index_tables_rel _ _ (compact_table (mask sp)) (mask sp) _ _ _ _
              (length_compact_table (mask sp)) E0) as (bs & Hbs & F).
  exists bs. eexists. split; [exact Hbs|]. split; [reflexivity|].
  apply (@filter_count_rel (mask sp)). exact F.
Qed.

Lemma crds__drops_masked_out_witness :
  let sp := mkSpinArray [2; 2; 2] [true; false; false; true] in
  let crds := [[0; 1; 1]; [0; 1; 1]; [0; 0; 1]]%Z in
  crds_ sp crds = Ok [[0; 1; 1]; [0; 1]]%Z /\
  exists bs inds_,
    adv_index sub_none (1 :: Nd sp) (mask sp) ([0%Z] :: spatial_of sp crds)
    = Ok bs /\
    nth_error [[0; 1; 1]; [0; 1]]%Z 1 = Some inds_ /\
    length inds_ = count_true bs.
Proof.
  intros sp crds.
  assert (H : crds_ sp crds = Ok [[0; 1; 1]; [0; 1]]%Z) by reflexivity.
  split; [exact H|]. exact (@crds__drops_masked_out sp crds _ H).
Defined.

(** ** Magnitude over a whole simulation *)

Open Scope R_scope.

(** The rotation lines keep the magnitudes when no field of the slice is
    zero, and when the slice turns no spin. *)
Lemma rotate_norm_step (g : bcast) (b M : list vec3) :
  length b = length M ->
  Forall (fun bi => bi <> v0) b
  \/ any_nonzero (map snd (mapi (fun i bi => beff2uϕ bi (g i)) b)) = false ->
  map norm (rotate g b M) = map norm M.
Proof.
  intros Hl [Hb|Hn]; unfold rotate.
  - unfold mapi. destruct (any_nonzero _); [|reflexivity].
    apply rotate_all_norm; assumption.
  - rewrite Hn. reflexivity.
Qed.

Lemma relax_none (M : list vec3) :
  relax (fun _ => 1) (fun _ => 1 - 1) (fun _ => 1) M = M.
Proof.
  unfold relax, mapi. apply mapi_from_id. intros i m.
  apply vec3_eq; simpl; ring.
Qed.

(** X25. Without relaxation, [blochsim] keeps the magnitude of the
    magnetization of every spin over a field sequence of which every slice
    either holds no zero field, or turns no spin at all, so that its
    rotation is skipped.  A slice that turns some spins and holds a zero
    field at others is left out: the axis of a zero field is not
    defined. *)
Theorem blochsim_keeps_magnitude (M : list vec3) (Beff : list (list vec3))
    (γ dt : bcast) (r : list vec3) :
  Forall (fun b => Forall (fun bi => bi <> v0) b \/ turns γ dt b = false)
    Beff ->
  blochsim M Beff None None γ dt = Ok r -> map norm r = map norm M.
Proof.
  unfold blochsim. intros HB H. bind_inv H. apply py_assert_ok in E.
  injection H as <-. clear a. revert M E.
  induction HB as [|b Beff Hb _ IH]; intros M E; simpl in *; [reflexivity|].
  apply andb_true_iff in E. destruct E as [Eb E]. apply Nat.eqb_eq in Eb.
  rewrite relax_none.
  rewrite IH by (rewrite length_rotate by exact Eb; exact E).
  apply rotate_norm_step; [exact Eb | exact Hb].
Qed.

Lemma blochsim_keeps_magnitude_witness :
  let Beff := [[V3 1 0 0; V3 0 1 0]; [V3 0 0 0; V3 0 0 0]] in
  Forall (fun b => Forall (fun bi => bi <> v0) b
                   \/ turns (fun _ => 1) (fun _ => 1) b = false) Beff /\
  exists r,
    blochsim [V3 0 0 1; V3 1 0 0] Beff None None
      (fun _ => 1) (fun _ => 1) = Ok r /\
    map norm r = map norm [V3 0 0 1; V3 1 0 0].
Proof.
  intros Beff.
  assert (HB : Forall (fun b => Forall (fun bi => bi <> v0) b
                               \/ turns (fun _ => 1) (fun _ => 1) b = false)
                 Beff).
  { constructor; [|constructor; [|constructor]].
    - left.
      constructor; [intros E; injection E; intros; lra|].
      constructor; [intros E; injection E; intros; lra|].
      constructor.
    - right. exact (turns_zero_field (fun _ => 1) (fun _ => 1) 2). }
  split; [exact HB|]. eexists. split; [reflexivity|].
  apply (@blochsim_keeps_magnitude [V3 0 0 1; V3 1 0 0] Beff
           (fun _ => 1) (fun _ => 1) _ HB).
  reflexivity.
Defined.

Close Scope R_scope.
